(** * BaseLLM / LLM: the caching and run-notification layer of
    [langchain/src/llms/base.ts], modelled in Rocq.

    Strings are [String.string]; string comparison is the lexicographic
    comparison of code units ([String.compare]), the comparison that
    [Array.prototype.sort] uses when no comparator is given. *)

From Stdlib Require Import String Ascii Sorting.Permutation Sorting.Sorted.
From stdpp Require Import base list gmap strings.

Open Scope string_scope.
Set Warnings "-register-all".

(* ------------------------------------------------------------------ *)
(** ** JavaScript values and their [ToString] rendering *)

(** The values that can sit in a [SerializedLLM] record or in an
    [llmOutput] map. Numbers are carried with their [ToString]
    rendering. *)
Inductive Val :=
| VUndef
| VNull
| VBool (b : bool)
| VNum (repr : string)
| VStr (s : string)
| VArr (elems : list Val)
| VObj (fields : list (string * Val)).

(** A plain JS object as its own-enumerable entries, in insertion order. *)
Abbreviation Obj := (list (string * Val)).

(** [Array.prototype.join] with separator [sep]. *)
Fixpoint join (sep : string) (l : list string) : string :=
  match l with
  | [] => ""
  | [s] => s
  | s :: l' => String.append s (String.append sep (join sep l'))
  end.

(** [ToString v]; an array renders as [join(",")] of its elements, where
    [undefined] and [null] elements render as the empty string. *)
Fixpoint to_string (v : Val) : string :=
  match v with
  | VUndef => "undefined"
  | VNull => "null"
  | VBool true => "true"
  | VBool false => "false"
  | VNum r => r
  | VStr s => s
  | VArr l =>
      join "," (map (fun e => match e with
                              | VUndef | VNull => ""
                              | _ => to_string e
                              end) l)
  | VObj _ => "[object Object]"
  end.

(** Rendering of an array element inside [Array.prototype.join]. *)
Definition elem_string (v : Val) : string :=
  match v with
  | VUndef | VNull => ""
  | _ => to_string v
  end.

(** [obj[k] = v]: overwrite the entry in place when [k] is present,
    otherwise append it (JS keeps insertion order). *)
Fixpoint obj_set (k : string) (v : Val) (o : Obj) : Obj :=
  match o with
  | [] => [(k, v)]
  | (k', v') :: o' =>
      if String.eqb k k' then (k, v) :: o' else (k', v') :: obj_set k v o'
  end.

(** [{...o, k1: v1, ...}] as successive assignments. *)
Definition obj_spread (o : Obj) : Obj :=
  fold_left (fun acc kv => obj_set kv.1 kv.2 acc) o [].

(** An entry [[k, v]] of [Object.entries], rendered as the array
    [[k, v]] is by [ToString]. *)
Definition entry_string (kv : string * Val) : string :=
  join "," [kv.1; elem_string kv.2].

(** [Array.prototype.sort()] without comparator: elements are compared by
    their [ToString] rendering. Any correct sort yields the same list for
    this total order; insertion sort is used here. *)
Fixpoint insert_sorted (x : string) (l : list string) : list string :=
  match l with
  | [] => [x]
  | y :: l' => if String.leb x y then x :: y :: l' else y :: insert_sorted x l'
  end.

Definition sort_strings (l : list string) : list string :=
  fold_right insert_sorted [] l.

(* ------------------------------------------------------------------ *)
(** ** Generations, results, errors *)

Record Generation := mkGeneration {
  text : string;
  generationInfo : option Obj
}.

(** [LLMResult]: [generations] is a JS array whose elements may be
    [undefined] ([None]); [llmOutput] and [__run] are optional fields. *)
Record LLMResult := mkLLMResult {
  generations : list (option (list Generation));
  llmOutput : option Obj;
  __run : option nat  (* [{ runId }] *)
}.

(** Thrown values. *)
Inductive Exn :=
| Error (message : string)
| TypeError (message : string).

(* ------------------------------------------------------------------ *)
(** ** The backend instance *)

(** The run manager handed to the backend ([CallbackManagerForLLMRun]):
    a run id and the handlers it dispatches to. *)
Record RunManager := mkRunManager {
  runId : nat;
  rm_handlers : list string
}.

(** A [BaseLLM] instance: what its subclass supplies ([_llmType],
    [_identifyingParams], [_generate]) and its configuration ([cache],
    [callbacks], [verbose]). The backend [_generate] returns the tokens
    it streams through [runManager?.handleLLMNewToken] and its outcome. *)
Record BaseLLM := mkBaseLLM {
  _llmType : string;
  _identifyingParams : Obj;
  cache : bool;
  callbacks : list string;
  verbose : bool;
  _generate : list string -> option (list string) -> option RunManager ->
              list string * (Exn + LLMResult)
}.

(** [_modelType()]. *)
Definition _modelType (m : BaseLLM) : string := "base_llm".

(** [serialize()] = [{...this._identifyingParams(), _type, _model}]. *)
Definition serialize (m : BaseLLM) : Obj :=
  obj_set "_model" (VStr (_modelType m))
    (obj_set "_type" (VStr (_llmType m)) (obj_spread (_identifyingParams m))).

(** The [stop] argument as a JS value ([undefined] when not given). *)
Definition stop_val (stop : option (list string)) : Val :=
  match stop with
  | None => VUndef
  | Some l => VArr (map VStr l)
  end.

(** [params = this.serialize(); params.stop = stop;
     llmStringKey = `${Object.entries(params).sort()}`]. *)
Definition llmStringKey (m : BaseLLM) (stop : option (list string)) : string :=
  let params := obj_set "stop" (stop_val stop) (serialize m) in
  join "," (sort_strings (map entry_string params)).

(* ------------------------------------------------------------------ *)
(** ** Effects: cache store, notification trace, run ids *)

(** The observable effects of one call, in the order they happen. *)
Inductive Event :=
| EvLookup (prompt : string) (llmKey : string)
| EvUpdate (prompt : option string) (llmKey : string)
           (value : option (list Generation))
| EvBackend (prompts : list string) (stop : option (list string))
| EvLLMStart (run : nat) (name : string) (prompts : list string)
| EvLLMNewToken (run : nat) (token : string)
| EvLLMError (run : nat) (err : Exn)
| EvLLMEnd (run : nat) (output : LLMResult).

(** The cache store is keyed by [(prompt, llmKey)]; a prompt is [None]
    when the code passes [prompts[undefined]], a value is [None] when it
    stores [undefined]. [next_run] stands for the [uuidv4()] source. *)
Record St := mkSt {
  store : gmap (option string * string) (option (list Generation));
  trace : list Event;
  next_run : nat
}.

(** A state and error monad: an [async] function that may throw. *)
Definition M (A : Type) : Type := St -> (Exn + A) * St.

Definition ret {A} (a : A) : M A := fun st => (inr a, st).

Definition bind {A B} (c : M A) (f : A -> M B) : M B :=
  fun st => match c st with
            | (inl e, st') => (inl e, st')
            | (inr a, st') => f a st'
            end.

Definition throw {A} (e : Exn) : M A := fun st => (inl e, st).

Notation "'do' x <- c ; k" := (bind c (fun x => k))
  (at level 60, c at next level, right associativity).
Notation "'do' c ; k" := (do _ <- c ; k)
  (at level 60, right associativity).

Definition emit (ev : Event) : M unit :=
  fun st => (inr tt, mkSt (store st) (trace st ++ [ev]) (next_run st)).

Fixpoint mapM {A B} (f : A -> M B) (l : list A) : M (list B) :=
  match l with
  | [] => ret []
  | x :: l' => do y <- f x; do ys <- mapM f l'; ret (y :: ys)
  end.

(** [cache.lookup(prompt, llmKey)]: the stored generations, or a miss
    ([null], and also a stored [undefined]). *)
Definition stored (s : gmap (option string * string) (option (list Generation)))
    (prompt key : string) : option (list Generation) :=
  match s !! (Some prompt, key) with
  | Some (Some g) => Some g
  | _ => None
  end.

Definition cache_lookup (prompt key : string) : M (option (list Generation)) :=
  fun st =>
    (inr (stored (store st) prompt key),
     mkSt (store st) (trace st ++ [EvLookup prompt key]) (next_run st)).

(** [cache.update(prompt, llmKey, value)]. *)
Definition cache_update (prompt : option string) (key : string)
    (value : option (list Generation)) : M unit :=
  fun st =>
    (inr tt, mkSt (<[(prompt, key) := value]> (store st))
                  (trace st ++ [EvUpdate prompt key value]) (next_run st)).

(* ------------------------------------------------------------------ *)
(** ** Notification coordinator *)

(** Modelled from the spec: [CallbackManager.configure]
    (callbacks/manager.ts, not in the sources). It merges the
    caller-supplied sinks with the instance's sinks, deduplicated, adds
    the console sink when [verbose] is set, and yields no manager when no
    sink is active. *)
Definition configure (cbs inheritable : list string) (verbose : bool)
    : option (list string) :=
  match remove_dups (cbs ++ inheritable ++ (if verbose then ["console"] else []))
  with
  | [] => None
  | hs => Some hs
  end.

(** Modelled from the spec: [CallbackManager.handleLLMStart]. It takes a
    fresh run id, notifies the sinks of the start of the run and returns
    the run manager for it. Emissions are fire-and-forget and do not
    fail. *)
Definition handleLLMStart (hs : list string) (name : string)
    (prompts : list string) : M RunManager :=
  fun st =>
    let r := next_run st in
    (inr (mkRunManager r hs),
     mkSt (store st) (trace st ++ [EvLLMStart r name prompts]) (S r)).

(** [runManager?.handleLLMError(err)], [runManager?.handleLLMEnd(output)],
    [runManager?.handleLLMNewToken(token)]: no-ops without a manager. *)
Definition notify (rm : option RunManager) (ev : nat -> Event) : M unit :=
  match rm with
  | Some r => emit (ev (runId r))
  | None => ret tt
  end.

Definition notify_tokens (rm : option RunManager) (toks : list string) : M unit :=
  do mapM (fun t => notify rm (fun r => EvLLMNewToken r t)) toks; ret tt.

(* ------------------------------------------------------------------ *)
(** ** [BaseLLM._generateUncached] *)

(** [await this._generate(prompts, stop, runManager)], with the outcome
    caught as by the surrounding [try]. *)
Definition call_backend (m : BaseLLM) (prompts : list string)
    (stop : option (list string)) (rm : option RunManager)
    : M (Exn + LLMResult) :=
  let '(toks, outcome) := _generate m prompts stop rm in
  do emit (EvBackend prompts stop);
  do notify_tokens rm toks;
  ret outcome.

Definition _generateUncached (m : BaseLLM) (prompts : list string)
    (stop : option (list string)) (cbs : list string) : M LLMResult :=
  do rm <- match configure cbs (callbacks m) (verbose m) with
           | Some hs => do r <- handleLLMStart hs (_llmType m) prompts; ret (Some r)
           | None => ret None
           end;
  do outcome <- call_backend m prompts stop rm;
  match outcome with
  | inl err =>
      do notify rm (fun r => EvLLMError r err);
      throw err
  | inr output =>
      do notify rm (fun r => EvLLMEnd r output);
      ret (mkLLMResult (generations output) (llmOutput output)
                       (option_map runId rm))
  end.

(* ------------------------------------------------------------------ *)
(** ** [BaseLLM.generate] *)

(** The [prompts] argument as received at run time: a [string[]] or a
    value that is not an array. *)
Inductive PromptsArg :=
| PArray (prompts : list string)
| PNotArray (v : Val).

(** The order in which the [n] concurrent [cache.lookup] calls resolve:
    lookup [i] resolves after [lat i] ticks, and continuations that
    become ready at the same tick run in the order they were scheduled
    (index order). This is a stable sort of [0 .. n-1] by [lat]. *)
Fixpoint insert_by_latency (lat : nat -> nat) (i : nat) (l : list nat)
    : list nat :=
  match l with
  | [] => [i]
  | j :: l' => if Nat.ltb (lat i) (lat j) then i :: j :: l'
               else j :: insert_by_latency lat i l'
  end.

Definition completion_order (lat : nat -> nat) (n : nat) : list nat :=
  fold_left (fun acc i => insert_by_latency lat i acc) (seq 0 n) [].

(** [if (!result) missingPromptIndices.push(index)], run by each lookup
    continuation in completion order. *)
Definition missing_indices (lookups : list (option (list Generation)))
    (order : list nat) : list nat :=
  List.filter (fun i => match lookups !! i with
                   | Some (Some _) => false
                   | _ => true
                   end) order.

(** [results.generations.map(async (generation, index) => {
       const promptIndex = missingPromptIndices[index];
       generations[promptIndex] = generation;
       return cache.update(prompts[promptIndex], llmStringKey, generation); })]
    An index past the end of [missingPromptIndices] gives an [undefined]
    [promptIndex]: the assignment then sets no array element and the
    update is for the prompt [undefined]. *)
Fixpoint splice_results (prompts : list string) (key : string)
    (missing : list nat) (index : nat)
    (res : list (option (list Generation)))
    (gens : list (option (list Generation)))
    : M (list (option (list Generation))) :=
  match res with
  | [] => ret gens
  | generation :: res' =>
      match missing !! index with
      | Some promptIndex =>
          do cache_update (prompts !! promptIndex) key generation;
          splice_results prompts key missing (S index) res'
                         (<[promptIndex := generation]> gens)
      | None =>
          do cache_update None key generation;
          splice_results prompts key missing (S index) res' gens
      end
  end.

Definition generate (m : BaseLLM) (prompts : PromptsArg)
    (stop : option (list string)) (cbs : list string) (lat : nat -> nat)
    : M LLMResult :=
  match prompts with
  | PNotArray _ => throw (Error "Argument 'prompts' is expected to be a string[]")
  | PArray ps =>
      if negb (cache m) then _generateUncached m ps stop cbs
      else
        let key := llmStringKey m stop in
        (* [generations]: the lookup results, by prompt index *)
        do lookups <- mapM (fun p => cache_lookup p key) ps;
        let missing := missing_indices lookups
                         (completion_order lat (length ps)) in
        if Nat.ltb 0 (length missing) then
          (* every index of [missing] is below [length ps] *)
          do results <- _generateUncached m (omap (fun i => ps !! i) missing)
                          stop cbs;
          do gens <- splice_results ps key missing 0 (generations results)
                       lookups;
          ret (mkLLMResult gens (Some (default [] (llmOutput results))) None)
        else ret (mkLLMResult lookups (Some []) None)
  end.

(* ------------------------------------------------------------------ *)
(** ** [LLM._generate]: the single-prompt adapter *)

(** [for (i ...) { const text = await this._call(prompts[i], stop,
     runManager); generations.push([{ text }]); }]: the calls run in
    order and the first failure aborts the loop. *)
Fixpoint llm_generate_loop
    (_call : string -> option (list string) -> option RunManager -> Exn + string)
    (prompts : list string) (stop : option (list string))
    (rm : option RunManager) : Exn + list (option (list Generation)) :=
  match prompts with
  | [] => inr []
  | p :: ps =>
      match _call p stop rm with
      | inl e => inl e
      | inr t =>
          match llm_generate_loop _call ps stop rm with
          | inl e => inl e
          | inr gs => inr (Some [mkGeneration t None] :: gs)
          end
      end
  end.

Definition LLM_generate
    (_call : string -> option (list string) -> option RunManager -> Exn + string)
    (prompts : list string) (stop : option (list string))
    (rm : option RunManager) : list string * (Exn + LLMResult) :=
  ([], match llm_generate_loop _call prompts stop rm with
       | inl e => inl e
       | inr gs => inr (mkLLMResult gs None None)
       end).

(* ------------------------------------------------------------------ *)
(** ** [BaseLLM.deserialize] *)

(** A [SerializedLLM] record: [_model] and [_type] ([None] when the field
    is absent) and the remaining fields. *)
Record SerializedLLM := mkSerializedLLM {
  _model : option string;
  _type : option string;
  rest : Obj
}.

(** What [{ openai: OpenAI }[_type]] can find: the registered class, or a
    member that every object literal inherits from [Object.prototype]. *)
Inductive ClsRef :=
| ClsOpenAI
| ProtoMember (name : string).

Definition object_prototype_members : list string :=
  ["constructor"; "__defineGetter__"; "__defineSetter__"; "hasOwnProperty";
   "__lookupGetter__"; "__lookupSetter__"; "isPrototypeOf";
   "propertyIsEnumerable"; "toString"; "valueOf"; "__proto__";
   "toLocaleString"].

(** A property key as [obj[k]] converts it. *)
Definition prop_key (k : option string) : string :=
  match k with None => "undefined" | Some s => s end.

Definition registry_lookup (t : string) : option ClsRef :=
  if String.eqb t "openai" then Some ClsOpenAI
  else if existsb (String.eqb t) object_prototype_members
       then Some (ProtoMember t) else None.

(** What [new Cls(rest)] builds: an [OpenAI] instance, or, for
    [Cls = Object], the object [rest] itself. *)
Inductive Loaded :=
| LoadedOpenAI (fields : Obj)
| LoadedObject (o : Obj).

Definition truthy_string (s : option string) : bool :=
  match s with
  | None => false
  | Some x => negb (String.eqb x "")
  end.

Definition deserialize (data : SerializedLLM) : Exn + Loaded :=
  if truthy_string (_model data) && negb (String.eqb (prop_key (_model data)) "base_llm")
  then inl (Error (String.append "Cannot load LLM with model " (prop_key (_model data))))
  else
    match registry_lookup (prop_key (_type data)) with
    | None => inl (Error (String.append "Cannot load  LLM with type " (prop_key (_type data))))
    | Some ClsOpenAI => inr (LoadedOpenAI (rest data))
    | Some (ProtoMember "constructor") => inr (LoadedObject (rest data))
    | Some (ProtoMember _) => inl (TypeError "Cls is not a constructor")
    end.

(* ================================================================== *)
(** * Properties *)

(** A single-prompt backend used in the concrete runs below: it echoes
    its prompt. *)
Definition echo_call (p : string) (stop : option (list string))
    (rm : option RunManager) : Exn + string :=
  inr (String.append "out:" p).

Definition echo_llm (cached : bool) (cbs : list string) : BaseLLM :=
  mkBaseLLM "echo" [] cached cbs false (LLM_generate echo_call).

Example echo_llm_key :
  llmStringKey (echo_llm true []) None = "_model,base_llm,_type,echo,stop,".
Proof. reflexivity. Qed.

(* ------------------------------------------------------------------ *)
(** ** Argument check *)

(** C7: when [prompts] is not an array, [generate] throws the
    invalid-argument error "Argument 'prompts' is expected to be a
    string[]" and leaves the state untouched: no cache lookup, no cache
    write, no notification and no backend call happened. *)
Theorem generate_rejects_non_array (m : BaseLLM) (v : Val)
    (stop : option (list string)) (cbs : list string) (lat : nat -> nat)
    (st : St) :
  generate m (PNotArray v) stop cbs lat st =
  (inl (Error "Argument 'prompts' is expected to be a string[]"), st).
Proof. reflexivity. Qed.

(* ------------------------------------------------------------------ *)
(** ** Deserialization *)

(** C8 fails as stated: the model check runs first, so a record with an
    unregistered type and a foreign model fails with the model error, not
    the type error; and an empty [_model] is falsy, so it passes the model
    check. *)
Lemma deserialize_check_order_counterexample :
  registry_lookup "foo" = None /\
  deserialize (mkSerializedLLM (Some "gpt") (Some "foo") []) =
    inl (Error "Cannot load LLM with model gpt") /\
  deserialize (mkSerializedLLM (Some "gpt") (Some "foo") []) <>
    inl (Error "Cannot load  LLM with type foo") /\
  deserialize (mkSerializedLLM (Some "") (Some "openai") []) =
    inr (LoadedOpenAI []).
Proof. repeat split; try reflexivity. discriminate. Qed.

(** C8 (amended): a non-empty [_model] other than "base_llm" makes
    [deserialize] fail with "Cannot load LLM with model M", whatever the
    type; with [_model] absent, empty or "base_llm", a [_type] that the
    lookup [{ openai }[_type]] does not resolve fails with
    "Cannot load  LLM with type T". No instance is built in either case. *)
Theorem deserialize_rejects (d : SerializedLLM) :
  (forall M, _model d = Some M -> M <> "" -> M <> "base_llm" ->
     deserialize d = inl (Error (String.append "Cannot load LLM with model " M))) /\
  ((truthy_string (_model d) = false \/ _model d = Some "base_llm") ->
   registry_lookup (prop_key (_type d)) = None ->
   deserialize d =
     inl (Error (String.append "Cannot load  LLM with type " (prop_key (_type d))))).
Proof.
  split.
  - intros M HM Hne Hbase. unfold deserialize. rewrite HM. simpl.
    apply String.eqb_neq in Hne. apply String.eqb_neq in Hbase.
    rewrite Hne, Hbase. reflexivity.
  - intros Hmodel Hreg. unfold deserialize. rewrite Hreg.
    destruct Hmodel as [Hf | Hb].
    + rewrite Hf. reflexivity.
    + rewrite Hb. reflexivity.
Qed.

Lemma deserialize_rejects_witness :
  deserialize (mkSerializedLLM (Some "gpt") (Some "openai") []) =
    inl (Error "Cannot load LLM with model gpt") /\
  deserialize (mkSerializedLLM None (Some "cohere") []) =
    inl (Error "Cannot load  LLM with type cohere").
Proof.
  split.
  - apply (proj1 (deserialize_rejects (mkSerializedLLM (Some "gpt") (Some "openai") [])));
      [reflexivity | discriminate | discriminate].
  - apply (proj2 (deserialize_rejects (mkSerializedLLM None (Some "cohere") [])));
      [left; reflexivity | reflexivity].
Defined.

(* ------------------------------------------------------------------ *)
(** ** The single-prompt adapter *)

(** C9: when [LLM._generate] succeeds, its result has one entry per
    prompt, in prompt order, and entry [i] is the one-candidate list
    [[{ text }]] of the string [_call] returned for prompt [i]. *)
Theorem LLM_generate_one_per_prompt
    (_call : string -> option (list string) -> option RunManager -> Exn + string)
    (ps : list string) (stop : option (list string)) (rm : option RunManager)
    (res : LLMResult) :
  snd (LLM_generate _call ps stop rm) = inr res ->
  length (generations res) = length ps /\
  forall (i : nat) (p : string), ps !! i = Some p ->
    exists t, _call p stop rm = inr t /\
              generations res !! i = Some (Some [mkGeneration t None]).
Proof.
  unfold LLM_generate; simpl.
  destruct (llm_generate_loop _call ps stop rm) as [e | gs] eqn:Hloop;
    intros Hres; [discriminate |].
  injection Hres as <-; simpl.
  revert gs Hloop. induction ps as [| p ps IH]; intros gs Hloop; simpl in Hloop.
  - injection Hloop as <-. split; [reflexivity |]. intros i q Hq. done.
  - destruct (_call p stop rm) as [e | t] eqn:Hc; [discriminate |].
    destruct (llm_generate_loop _call ps stop rm) as [e | gs'] eqn:Hl;
      [discriminate |].
    injection Hloop as <-.
    destruct (IH gs' eq_refl) as [Hlen Hnth].
    split; [simpl; lia |].
    intros [| i] q Hq; simpl in Hq.
    + injection Hq as <-. exists t. split; [exact Hc | reflexivity].
    + exact (Hnth i q Hq).
Qed.

Lemma LLM_generate_one_per_prompt_witness :
  length (generations (mkLLMResult
    [Some [mkGeneration "out:a" None]; Some [mkGeneration "out:b" None]] None None))
    = 2 /\
  exists t, echo_call "b" None None = inr t /\
    generations (mkLLMResult
      [Some [mkGeneration "out:a" None]; Some [mkGeneration "out:b" None]] None None)
      !! 1 = Some (Some [mkGeneration t None]).
Proof.
  destruct (LLM_generate_one_per_prompt echo_call ["a"; "b"] None None
              (mkLLMResult [Some [mkGeneration "out:a" None];
                            Some [mkGeneration "out:b" None]] None None)
              eq_refl) as [Hlen Hnth].
  split; [exact Hlen |].
  exact (Hnth 1 "b" eq_refl).
Defined.

(* ------------------------------------------------------------------ *)
(** ** The uncached path: its effects in closed form *)

(** The run manager [_generateUncached] obtains in state [st]. *)
Definition run_handle (m : BaseLLM) (cbs : list string) (st : St)
    : option RunManager :=
  match configure cbs (callbacks m) (verbose m) with
  | Some hs => Some (mkRunManager (next_run st) hs)
  | None => None
  end.

Definition run_next (m : BaseLLM) (cbs : list string) (st : St) : nat :=
  match configure cbs (callbacks m) (verbose m) with
  | Some _ => S (next_run st)
  | None => next_run st
  end.

Definition run_events (rh : option RunManager) (f : nat -> Event) : list Event :=
  match rh with
  | Some r => [f (runId r)]
  | None => []
  end.

Definition token_events (rh : option RunManager) (toks : list string)
    : list Event :=
  match rh with
  | Some r => map (EvLLMNewToken (runId r)) toks
  | None => []
  end.

Definition uncached_trace (m : BaseLLM) (ps : list string)
    (stop : option (list string)) (rh : option RunManager) : list Event :=
  let '(toks, outcome) := _generate m ps stop rh in
  run_events rh (fun r => EvLLMStart r (_llmType m) ps) ++
  [EvBackend ps stop] ++ token_events rh toks ++
  match outcome with
  | inl err => run_events rh (fun r => EvLLMError r err)
  | inr out => run_events rh (fun r => EvLLMEnd r out)
  end.

Definition uncached_result (m : BaseLLM) (ps : list string)
    (stop : option (list string)) (rh : option RunManager) : Exn + LLMResult :=
  match snd (_generate m ps stop rh) with
  | inl err => inl err
  | inr out => inr (mkLLMResult (generations out) (llmOutput out)
                                (option_map runId rh))
  end.

Lemma mapM_notify_eq (rm : option RunManager) (toks : list string) (st : St) :
  exists xs, mapM (fun t => notify rm (fun r => EvLLMNewToken r t)) toks st =
    (inr xs, mkSt (store st) (trace st ++ token_events rm toks) (next_run st)).
Proof.
  revert st. induction toks as [| t toks IH]; intros st.
  - exists []. destruct rm; simpl; rewrite app_nil_r; destruct st; reflexivity.
  - cbn [mapM]. unfold bind.
    assert (Hn : notify rm (fun r => EvLLMNewToken r t) st =
      (inr tt, mkSt (store st) (trace st ++ token_events rm [t]) (next_run st))).
    { destruct rm, st; simpl; rewrite ?app_nil_r; reflexivity. }
    rewrite Hn.
    destruct (IH (mkSt (store st) (trace st ++ token_events rm [t]) (next_run st)))
      as [xs Hxs].
    rewrite Hxs. exists (tt :: xs). simpl.
    destruct rm; simpl; rewrite <- ?app_assoc; reflexivity.
Qed.

Lemma notify_tokens_eq (rm : option RunManager) (toks : list string) (st : St) :
  notify_tokens rm toks st =
    (inr tt, mkSt (store st) (trace st ++ token_events rm toks) (next_run st)).
Proof.
  unfold notify_tokens, bind.
  destruct (mapM_notify_eq rm toks st) as [xs ->]. reflexivity.
Qed.

Lemma generateUncached_eq (m : BaseLLM) (ps : list string)
    (stop : option (list string)) (cbs : list string) (st : St) :
  _generateUncached m ps stop cbs st =
    (uncached_result m ps stop (run_handle m cbs st),
     mkSt (store st) (trace st ++ uncached_trace m ps stop (run_handle m cbs st))
          (run_next m cbs st)).
Proof.
  unfold _generateUncached, uncached_result, uncached_trace, run_handle, run_next.
  destruct (configure cbs (callbacks m) (verbose m)) as [hs |];
    unfold bind at 1; simpl.
  - unfold bind at 1. simpl. unfold call_backend.
    destruct (_generate m ps stop (Some (mkRunManager (next_run st) hs)))
      as [toks [err | out]]; simpl;
      unfold bind; simpl; rewrite notify_tokens_eq; simpl;
      repeat rewrite <- app_assoc; reflexivity.
  - unfold call_backend.
    destruct (_generate m ps stop None) as [toks [err | out]]; simpl;
      unfold bind; simpl; rewrite notify_tokens_eq; simpl;
      repeat rewrite <- app_assoc; simpl; rewrite ?app_nil_r; reflexivity.
Qed.

(* ------------------------------------------------------------------ *)
(** ** Backend failures and the run lifecycle *)

(** C5: when the backend fails with [e], [_generateUncached] calls the
    backend once, then emits the "error" notification of the run (when a
    run manager exists) as its last effect, and throws [e] itself. *)
Theorem uncached_failure_propagates (m : BaseLLM) (ps : list string)
    (stop : option (list string)) (cbs : list string) (st : St) (e : Exn) :
  snd (_generate m ps stop (run_handle m cbs st)) = inl e ->
  fst (_generateUncached m ps stop cbs st) = inl e /\
  trace (snd (_generateUncached m ps stop cbs st)) =
    (trace st ++
     run_events (run_handle m cbs st) (fun r => EvLLMStart r (_llmType m) ps) ++
     [EvBackend ps stop] ++
     token_events (run_handle m cbs st)
                  (fst (_generate m ps stop (run_handle m cbs st))) ++
     run_events (run_handle m cbs st) (fun r => EvLLMError r e))%list.
Proof.
  intros He. rewrite generateUncached_eq. simpl.
  unfold uncached_result, uncached_trace. rewrite He.
  destruct (_generate m ps stop (run_handle m cbs st)) as [toks outcome].
  simpl in He. subst outcome. split; reflexivity.
Qed.

(** A failing backend for the concrete runs. *)
Definition failing_llm (cbs : list string) : BaseLLM :=
  mkBaseLLM "failing" [] false cbs false
    (fun _ _ _ => (["partial"], inl (Error "backend down"))).

Lemma uncached_failure_propagates_witness :
  fst (_generateUncached (failing_llm ["h"]) ["q"] None [] (mkSt ∅ [] 0)) =
    inl (Error "backend down") /\
  trace (snd (_generateUncached (failing_llm ["h"]) ["q"] None [] (mkSt ∅ [] 0))) =
    [EvLLMStart 0 "failing" ["q"]; EvBackend ["q"] None;
     EvLLMNewToken 0 "partial"; EvLLMError 0 (Error "backend down")].
Proof.
  exact (uncached_failure_propagates (failing_llm ["h"]) ["q"] None []
           (mkSt ∅ [] 0) (Error "backend down") eq_refl).
Defined.

(** The lifecycle notifications among the effects. *)
Definition is_notification (ev : Event) : bool :=
  match ev with
  | EvLLMStart _ _ _ | EvLLMNewToken _ _ | EvLLMError _ _ | EvLLMEnd _ _ => true
  | _ => false
  end.

Lemma filter_token_events (n : nat) (toks : list string) :
  List.filter is_notification (map (EvLLMNewToken n) toks) =
  map (EvLLMNewToken n) toks.
Proof.
  induction toks as [| t toks IH]; simpl; [reflexivity | now rewrite IH].
Qed.

(** C6: one run of [_generateUncached] either has no run manager and
    emits no notification, or emits, for its run id, a "start", then only
    token notifications, then exactly one terminal notification: "error"
    when it throws that error, "end" when it returns that output. *)
Theorem uncached_lifecycle (m : BaseLLM) (ps : list string)
    (stop : option (list string)) (cbs : list string) (st : St) :
  exists evs,
    trace (snd (_generateUncached m ps stop cbs st)) = (trace st ++ evs)%list /\
    ((run_handle m cbs st = None /\ List.filter is_notification evs = []) \/
     (exists r toks,
        run_handle m cbs st = Some r /\
        ((exists e,
            List.filter is_notification evs =
              EvLLMStart (runId r) (_llmType m) ps ::
              (map (EvLLMNewToken (runId r)) toks ++ [EvLLMError (runId r) e])%list /\
            fst (_generateUncached m ps stop cbs st) = inl e) \/
         (exists out,
            List.filter is_notification evs =
              EvLLMStart (runId r) (_llmType m) ps ::
              (map (EvLLMNewToken (runId r)) toks ++ [EvLLMEnd (runId r) out])%list /\
            fst (_generateUncached m ps stop cbs st) =
              inr (mkLLMResult (generations out) (llmOutput out)
                               (Some (runId r))))))).
Proof.
  rewrite generateUncached_eq. simpl.
  exists (uncached_trace m ps stop (run_handle m cbs st)). split; [reflexivity |].
  unfold uncached_trace, uncached_result.
  destruct (run_handle m cbs st) as [r |] eqn:Hrh.
  - right. destruct (_generate m ps stop (Some r)) as [toks [e | out]]; simpl.
    + exists r, toks. split; [reflexivity |]. left. exists e.
      rewrite List.filter_app, filter_token_events. simpl. split; reflexivity.
    + exists r, toks. split; [reflexivity |]. right. exists out.
      rewrite List.filter_app, filter_token_events. simpl. split; reflexivity.
  - left. split; [reflexivity |].
    destruct (_generate m ps stop None) as [toks [e | out]]; reflexivity.
Qed.

(* ------------------------------------------------------------------ *)
(** ** The cached path of [generate]: its effects in closed form *)

Lemma mapM_lookup_eq (key : string) (ps : list string) (st : St) :
  mapM (fun p => cache_lookup p key) ps st =
    (inr (map (fun p => stored (store st) p key) ps),
     mkSt (store st) (trace st ++ map (fun p => EvLookup p key) ps)%list
          (next_run st)).
Proof.
  revert st. induction ps as [| p ps IH]; intros st.
  - simpl. rewrite app_nil_r. destruct st; reflexivity.
  - cbn [mapM]. unfold bind at 1. simpl. unfold bind. rewrite IH. simpl.
    rewrite <- app_assoc. reflexivity.
Qed.

Lemma insert_by_latency_perm (lat : nat -> nat) (i : nat) (l : list nat) :
  Permutation (insert_by_latency lat i l) (i :: l).
Proof.
  induction l as [| j l IH]; simpl; [reflexivity |].
  destruct (Nat.ltb (lat i) (lat j)); [reflexivity |].
  rewrite IH. apply perm_swap.
Qed.

Lemma completion_order_perm (lat : nat -> nat) (n : nat) :
  Permutation (completion_order lat n) (seq 0 n).
Proof.
  unfold completion_order.
  assert (Hgen : forall l acc,
    Permutation (fold_left (fun acc i => insert_by_latency lat i acc) l acc)
                (l ++ acc)%list).
  { induction l as [| i l IH]; intros acc; simpl; [reflexivity |].
    rewrite IH, insert_by_latency_perm. symmetry. apply Permutation_middle. }
  rewrite Hgen, app_nil_r. reflexivity.
Qed.

Lemma completion_order_bound (lat : nat -> nat) (n i : nat) :
  In i (completion_order lat n) -> i < n.
Proof.
  intros Hin. apply (Permutation_in _ (completion_order_perm lat n)) in Hin.
  apply in_seq in Hin. lia.
Qed.

Lemma Permutation_list_filter {A} (f : A -> bool) (l l' : list A) :
  Permutation l l' -> Permutation (List.filter f l) (List.filter f l').
Proof.
  induction 1 as [| x l l' _ IH | x y l | l l' l'' _ IH1 _ IH2]; simpl.
  - constructor.
  - destruct (f x); [constructor |]; exact IH.
  - destruct (f x), (f y); try constructor; try reflexivity.
  - etransitivity; eauto.
Qed.

(** The indices of the prompts that miss in store [s]. *)
Definition miss_positions (ps : list string)
    (s : gmap (option string * string) (option (list Generation)))
    (key : string) : list nat :=
  List.filter (fun i => match ps !! i with
                        | Some p => match stored s p key with
                                    | Some _ => false
                                    | None => true
                                    end
                        | None => false
                        end) (seq 0 (length ps)).

Lemma missing_indices_perm (ps : list string)
    (s : gmap (option string * string) (option (list Generation)))
    (key : string) (lat : nat -> nat) :
  Permutation
    (missing_indices (map (fun p => stored s p key) ps)
                     (completion_order lat (length ps)))
    (miss_positions ps s key).
Proof.
  unfold missing_indices, miss_positions.
  rewrite (Permutation_list_filter _ _ _ (completion_order_perm lat (length ps))).
  apply Permutation_refl'. apply filter_ext_in.
  intros i Hi. apply in_seq in Hi.
  rewrite list_lookup_fmap.
  destruct (ps !! i) as [p |] eqn:Hp; simpl.
  - destruct (stored s p key); reflexivity.
  - apply lookup_ge_None in Hp. lia.
Qed.

Lemma generate_cached_eq (m : BaseLLM) (ps : list string)
    (stop : option (list string)) (cbs : list string) (lat : nat -> nat)
    (st : St) :
  cache m = true ->
  generate m (PArray ps) stop cbs lat st =
    (let key := llmStringKey m stop in
     let lookups := map (fun p => stored (store st) p key) ps in
     let st1 := mkSt (store st) (trace st ++ map (fun p => EvLookup p key) ps)%list
                     (next_run st) in
     let missing := missing_indices lookups (completion_order lat (length ps)) in
     if Nat.ltb 0 (length missing) then
       (do results <- _generateUncached m (omap (fun i => ps !! i) missing) stop cbs;
        do gens <- splice_results ps key missing 0 (generations results) lookups;
        ret (mkLLMResult gens (Some (default [] (llmOutput results))) None)) st1
     else (inr (mkLLMResult lookups (Some []) None), st1)).
Proof.
  intros Hc. unfold generate. rewrite Hc. simpl.
  unfold bind at 1. rewrite mapM_lookup_eq. cbv zeta.
  destruct (Nat.ltb _ _); reflexivity.
Qed.

(** The cache writes [splice_results] performs, in order. *)
Fixpoint splice_updates (ps : list string) (key : string) (missing : list nat)
    (index : nat) (res : list (option (list Generation))) : list Event :=
  match res with
  | [] => []
  | g :: res' =>
      EvUpdate (match missing !! index with
                | Some promptIndex => ps !! promptIndex
                | None => None
                end) key g ::
      splice_updates ps key missing (S index) res'
  end.

Lemma splice_results_eq (ps : list string) (key : string) (missing : list nat)
    (index : nat) (res gens : list (option (list Generation))) (st : St) :
  exists gens' s',
    splice_results ps key missing index res gens st =
      (inr gens', mkSt s' (trace st ++ splice_updates ps key missing index res)%list
                       (next_run st)).
Proof.
  revert index gens st. induction res as [| g res IH]; intros index gens st; simpl.
  - exists gens, (store st). rewrite app_nil_r. destruct st; reflexivity.
  - destruct (missing !! index) as [pi |]; unfold bind; simpl.
    + destruct (IH (S index) (<[pi := g]> gens)
          (mkSt (<[(ps !! pi, key) := g]> (store st))
                (trace st ++ [EvUpdate (ps !! pi) key g]) (next_run st)))
        as [gens' [s' Hs]].
      rewrite Hs. exists gens', s'. simpl. rewrite <- app_assoc. reflexivity.
    + destruct (IH (S index) gens
          (mkSt (<[(None, key) := g]> (store st))
                (trace st ++ [EvUpdate None key g]) (next_run st)))
        as [gens' [s' Hs]].
      rewrite Hs. exists gens', s'. simpl. rewrite <- app_assoc. reflexivity.
Qed.

(** The keys of the cache writes among some effects. *)
Definition update_keys (evs : list Event) : list (option string * string) :=
  omap (fun ev => match ev with
                  | EvUpdate p k _ => Some (p, k)
                  | _ => None
                  end) evs.

(** The prompts the backend was invoked with, per invocation. *)
Definition backend_calls (evs : list Event) : list (list string) :=
  omap (fun ev => match ev with
                  | EvBackend qs _ => Some qs
                  | _ => None
                  end) evs.

Lemma update_keys_app (l1 l2 : list Event) :
  update_keys (l1 ++ l2)%list = (update_keys l1 ++ update_keys l2)%list.
Proof. unfold update_keys. apply omap_app. Qed.

Lemma update_keys_lookups (key : string) (ps : list string) :
  update_keys (map (fun p => EvLookup p key) ps) = [].
Proof. induction ps; simpl; [reflexivity | exact IHps]. Qed.

Lemma update_keys_uncached (m : BaseLLM) (ps : list string)
    (stop : option (list string)) (rh : option RunManager) :
  update_keys (uncached_trace m ps stop rh) = [].
Proof.
  unfold uncached_trace.
  destruct (_generate m ps stop rh) as [toks outcome].
  rewrite !update_keys_app.
  assert (Ht : update_keys (token_events rh toks) = []).
  { destruct rh; simpl; [| reflexivity].
    induction toks; simpl; [reflexivity | exact IHtoks]. }
  rewrite Ht. destruct rh, outcome; reflexivity.
Qed.

Lemma update_keys_splice (ps : list string) (key : string) (missing : list nat)
    (res : list (option (list Generation))) (index : nat) :
  (length res + index = length missing)%nat ->
  update_keys (splice_updates ps key missing index res) =
    map (fun i => (ps !! i, key)) (drop index missing).
Proof.
  revert index. induction res as [| g res IH]; intros index Hlen; simpl in *.
  - rewrite drop_ge; [reflexivity | lia].
  - destruct (missing !! index) as [pi |] eqn:Hpi.
    + rewrite (drop_S _ _ _ Hpi). simpl. f_equal. apply IH. lia.
    + apply lookup_ge_None in Hpi. lia.
Qed.

Lemma length_omap_lookup (ps : list string) (l : list nat) :
  (forall i, In i l -> i < length ps) ->
  length (omap (fun i => ps !! i) l) = length l.
Proof.
  induction l as [| i l IH]; intros Hb; simpl; [reflexivity |].
  destruct (ps !! i) eqn:Hi.
  - simpl. f_equal. apply IH. intros j Hj. apply Hb. right. exact Hj.
  - apply lookup_ge_None in Hi. specialize (Hb i (or_introl eq_refl)). lia.
Qed.

Lemma missing_indices_bound (lookups : list (option (list Generation)))
    (lat : nat -> nat) (n i : nat) :
  In i (missing_indices lookups (completion_order lat n)) -> i < n.
Proof.
  unfold missing_indices. intros Hin. apply filter_In in Hin.
  exact (completion_order_bound lat n i (proj1 Hin)).
Qed.

Lemma filter_all_false {A} (f : A -> bool) (l : list A) :
  (forall x, In x l -> f x = false) -> List.filter f l = [].
Proof.
  induction l as [| x l IH]; intros H; simpl; [reflexivity |].
  rewrite (H x (or_introl eq_refl)). apply IH. intros y Hy. apply H. right. exact Hy.
Qed.

Lemma lookups_all_hits (s : gmap (option string * string) (option (list Generation)))
    (key : string) (ps : list string) (gs : list (list Generation)) :
  Forall2 (fun p g => stored s p key = Some g) ps gs ->
  map (fun p => stored s p key) ps = map Some gs.
Proof. induction 1; simpl; [reflexivity | congruence]. Qed.

(* ------------------------------------------------------------------ *)
(** ** Full cache hits *)

(** C3: with a cache, when every prompt [ps[i]] is stored under the
    current key with generations [gs[i]], [generate] returns [gs] in
    prompt order with the empty [llmOutput] map, and its only effects are
    the lookups: the uncached path, hence the backend, never runs. *)
Theorem generate_all_hits (m : BaseLLM) (ps : list string)
    (stop : option (list string)) (cbs : list string) (lat : nat -> nat)
    (st : St) (gs : list (list Generation)) :
  cache m = true ->
  Forall2 (fun p g => stored (store st) p (llmStringKey m stop) = Some g) ps gs ->
  generate m (PArray ps) stop cbs lat st =
    (inr (mkLLMResult (map Some gs) (Some []) None),
     mkSt (store st)
          (trace st ++ map (fun p => EvLookup p (llmStringKey m stop)) ps)%list
          (next_run st)).
Proof.
  intros Hc Hall. rewrite (generate_cached_eq _ _ _ _ _ _ Hc). cbv zeta.
  rewrite (lookups_all_hits _ _ _ _ Hall).
  assert (Hlen : length ps = length gs) by exact (Forall2_length _ _ _ Hall).
  assert (Hm : missing_indices (map Some gs) (completion_order lat (length ps)) = []).
  { unfold missing_indices. apply filter_all_false.
    intros i Hi. apply completion_order_bound in Hi. rewrite Hlen in Hi.
    rewrite list_lookup_fmap.
    destruct (lookup_lt_is_Some_2 gs i Hi) as [g Hg]. rewrite Hg. reflexivity. }
  rewrite Hm. reflexivity.
Qed.

Definition cached_store : gmap (option string * string) (option (list Generation)) :=
  <[(Some "p2", llmStringKey (echo_llm true []) None) :=
      Some [mkGeneration "cached2" None]]>
  (<[(Some "p1", llmStringKey (echo_llm true []) None) :=
       Some [mkGeneration "cached1" None]]> ∅).

Lemma generate_all_hits_witness :
  generate (echo_llm true []) (PArray ["p1"; "p2"]) None [] (fun _ => 0)
           (mkSt cached_store [] 0) =
    (inr (mkLLMResult [Some [mkGeneration "cached1" None];
                       Some [mkGeneration "cached2" None]] (Some []) None),
     mkSt cached_store
          [EvLookup "p1" (llmStringKey (echo_llm true []) None);
           EvLookup "p2" (llmStringKey (echo_llm true []) None)] 0).
Proof.
  refine (generate_all_hits (echo_llm true []) ["p1"; "p2"] None [] (fun _ => 0)
           (mkSt cached_store [] 0)
           [[mkGeneration "cached1" None]; [mkGeneration "cached2" None]]
           eq_refl _).
  repeat constructor.
Defined.

(* ------------------------------------------------------------------ *)
(** ** Cache writes *)

(** Backends that return one entry per prompt, as [LLMResult] requires. *)
Lemma llm_generate_loop_length
    (_call : string -> option (list string) -> option RunManager -> Exn + string)
    (qs : list string) (stop : option (list string)) (rh : option RunManager)
    (gs : list (option (list Generation))) :
  llm_generate_loop _call qs stop rh = inr gs -> length gs = length qs.
Proof.
  revert gs. induction qs as [| q qs IH]; intros gs H; simpl in H.
  - injection H as <-. reflexivity.
  - destruct (_call q stop rh); [discriminate |].
    destruct (llm_generate_loop _call qs stop rh) as [e | gs'] eqn:Hl; [discriminate |].
    injection H as <-. simpl. f_equal. apply IH. reflexivity.
Qed.

Lemma LLM_generate_well_formed
    (_call : string -> option (list string) -> option RunManager -> Exn + string) :
  forall qs stop rh out, snd (LLM_generate _call qs stop rh) = inr out ->
    length (generations out) = length qs.
Proof.
  intros qs stop rh out. unfold LLM_generate. simpl.
  destruct (llm_generate_loop _call qs stop rh) as [e | gs] eqn:Hl; [discriminate |].
  intros H. injection H as <-. simpl. exact (llm_generate_loop_length _ _ _ _ _ Hl).
Qed.

(** C4: with a cache and a backend that returns one entry per prompt, the
    cache writes of a [generate] call are keyed by
    [(prompts[i], llmStringKey)] for exactly the indices [i] whose lookup
    missed, each once (in the order the backend answered); a prompt that
    hit is never written. When the backend throws, nothing is written. *)
Theorem generate_updates_exactly_misses (m : BaseLLM) (ps : list string)
    (stop : option (list string)) (cbs : list string) (lat : nat -> nat)
    (st : St) :
  cache m = true ->
  (forall qs stop' rh out, snd (_generate m qs stop' rh) = inr out ->
     length (generations out) = length qs) ->
  exists evs,
    trace (snd (generate m (PArray ps) stop cbs lat st)) = (trace st ++ evs)%list /\
    ((exists e, fst (generate m (PArray ps) stop cbs lat st) = inl e /\
                update_keys evs = []) \/
     (exists order,
        Permutation order (miss_positions ps (store st) (llmStringKey m stop)) /\
        update_keys evs = map (fun i => (ps !! i, llmStringKey m stop)) order)).
Proof.
  intros Hc Hwf. rewrite (generate_cached_eq _ _ _ _ _ _ Hc). cbv zeta.
  pose proof (missing_indices_perm ps (store st) (llmStringKey m stop) lat) as Hperm.
  pose proof (missing_indices_bound
                (map (fun p => stored (store st) p (llmStringKey m stop)) ps)
                lat (length ps)) as Hbound.
  set (key := llmStringKey m stop) in *.
  set (lookups := map (fun p => stored (store st) p key) ps) in *.
  set (missing := missing_indices lookups (completion_order lat (length ps))) in *.
  destruct (Nat.ltb 0 (length missing)) eqn:Hlt.
  - unfold bind. rewrite generateUncached_eq. unfold uncached_result.
    set (qs := omap (fun i => ps !! i) missing).
    destruct (snd (_generate m qs stop _)) as [e | out] eqn:Hg.
    + simpl. eexists. split.
      * rewrite <- app_assoc. reflexivity.
      * left. exists e. split; [reflexivity |].
        rewrite update_keys_app, update_keys_lookups, update_keys_uncached.
        reflexivity.
    + match goal with
      | |- context [splice_results ?a ?b ?c ?d ?e ?f ?g] =>
          destruct (splice_results_eq a b c d e f g) as [gens' [s' Hs]];
          rewrite Hs
      end.
      simpl. eexists. split.
      * rewrite <- !app_assoc. reflexivity.
      * right. exists missing. split; [exact Hperm |].
        rewrite !update_keys_app, update_keys_lookups, update_keys_uncached.
        simpl. rewrite update_keys_splice; [reflexivity |].
        rewrite (Hwf _ _ _ _ Hg). unfold qs. rewrite length_omap_lookup; [lia |].
        exact Hbound.
  - simpl. eexists. split; [reflexivity |].
    right. exists missing. split; [exact Hperm |].
    rewrite update_keys_lookups.
    apply Nat.ltb_ge in Hlt. destruct missing; [reflexivity | simpl in Hlt; lia].
Qed.

Lemma generate_updates_exactly_misses_witness :
  exists evs,
    trace (snd (generate (echo_llm true []) (PArray ["p1"; "p3"]) None [] (fun _ => 0)
                         (mkSt cached_store [] 0))) = ([] ++ evs)%list /\
    ((exists e, fst (generate (echo_llm true []) (PArray ["p1"; "p3"]) None []
                              (fun _ => 0) (mkSt cached_store [] 0)) = inl e /\
                update_keys evs = []) \/
     (exists order,
        Permutation order (miss_positions ["p1"; "p3"] cached_store
                             (llmStringKey (echo_llm true []) None)) /\
        update_keys evs =
          map (fun i => (["p1"; "p3"] !! i, llmStringKey (echo_llm true []) None))
              order)).
Proof.
  apply (generate_updates_exactly_misses (echo_llm true []) ["p1"; "p3"] None []
           (fun _ => 0) (mkSt cached_store [] 0)).
  - reflexivity.
  - apply LLM_generate_well_formed.
Defined.

(* ------------------------------------------------------------------ *)
(** ** The record [generate] returns *)

Definition p2_store : gmap (option string * string) (option (list Generation)) :=
  <[(Some "p2", llmStringKey (echo_llm true ["h"]) None) :=
      Some [mkGeneration "cached2" None]]> ∅.

(** The uncached path itself does attach the run id when a sink is
    active. *)
Example uncached_attaches_run :
  fst (_generateUncached (echo_llm true ["h"]) ["p1"] None [] (mkSt ∅ [] 7)) =
    inr (mkLLMResult [Some [mkGeneration "out:p1" None]] None (Some 7)).
Proof. reflexivity. Qed.

(* ------------------------------------------------------------------ *)
(** ** Partial hits: order of the miss subset *)

(** The lookups of [p1] is slow; those of [p2] (a hit) and [p3] are not. *)
Definition slow_first (i : nat) : nat := if Nat.eqb i 0 then 2 else 0.

(** C1 fails on the code: [missingPromptIndices] is filled by the lookup
    continuations in the order the lookups resolve, so with prompt 2
    cached and the lookup of prompt 1 resolving after that of prompt 3,
    the backend is invoked with [[p3, p1]], not [[p1, p3]]. The merged
    result still puts each computed result at its prompt's index. When
    the lookups resolve in index order the backend gets [[p1, p3]]. *)
Theorem generate_miss_order_follows_lookup_completion :
  backend_calls (trace (snd (generate (echo_llm true []) (PArray ["p1"; "p2"; "p3"])
                                      None [] slow_first (mkSt p2_store [] 0)))) =
    [["p3"; "p1"]] /\
  fst (generate (echo_llm true []) (PArray ["p1"; "p2"; "p3"])
                None [] slow_first (mkSt p2_store [] 0)) =
    inr (mkLLMResult [Some [mkGeneration "out:p1" None];
                      Some [mkGeneration "cached2" None];
                      Some [mkGeneration "out:p3" None]] (Some []) None) /\
  backend_calls (trace (snd (generate (echo_llm true []) (PArray ["p1"; "p2"; "p3"])
                                      None [] (fun _ => 0) (mkSt p2_store [] 0)))) =
    [["p1"; "p3"]].
Proof. vm_compute. repeat split. Qed.

(* ------------------------------------------------------------------ *)
(** ** The serialized-parameters key *)

(** stdpp makes [String.append] opaque to [simpl]; these proofs compute
    with it. *)
#[local] Arguments String.append : simpl nomatch.















Section SortShape.
  (** Sorting a list whose elements, but one, do not start with [p]: the
      position of the element [p ++ S] does not depend on [S]. *)
Variable p : string.





End SortShape.





Lemma obj_set_in (k : string) (v : Val) (o : Obj) (kv : string * Val) :
  In kv (obj_set k v o) -> kv = (k, v) \/ In kv o.
Proof.
  induction o as [| [k' v'] o IH]; simpl; [intuition |].
  destruct (String.eqb k k'); simpl; intuition.
Qed.

Lemma obj_set_keys (k : string) (v : Val) (o : Obj) (k' : string) :
  In k' (map fst (obj_set k v o)) -> k' = k \/ In k' (map fst o).
Proof.
  intros H. apply in_map_iff in H as [[k0 v0] [<- Hin]].
  apply obj_set_in in Hin as [Heq | Hin].
  - injection Heq as -> ->. left. reflexivity.
  - right. apply in_map_iff. exists (k0, v0). split; [reflexivity | exact Hin].
Qed.

Lemma obj_set_nodup (k : string) (v : Val) (o : Obj) :
  List.NoDup (map fst o) -> List.NoDup (map fst (obj_set k v o)).
Proof.
  induction o as [| [k' v'] o IH]; simpl; intros H.
  - constructor; [intros [] | constructor].
  - inversion H as [| ? ? Hn Hd]; subst.
    destruct (String.eqb k k') eqn:E.
    + apply String.eqb_eq in E. subst. simpl. constructor; assumption.
    + simpl. constructor; [| apply IH; exact Hd].
      intros Hin. apply obj_set_keys in Hin as [Hin | Hin].
      * apply String.eqb_neq in E. congruence.
      * contradiction.
Qed.








(** A backend whose identifying parameters include a "stop" entry of
    their own, and a model name. *)
Definition davinci_llm : BaseLLM :=
  mkBaseLLM "openai" [("modelName", VStr "text-davinci-003"); ("stop", VNull)]
    true [] false (LLM_generate echo_call).


(** C2 (code bug): the different stop lists ["a,b"] and ["a"; "b"] give
    the same cache key, so a generation cached under ["a"; "b"] is served
    to a call with stop list ["a,b"] without calling the backend: a false
    cache hit. *)
Lemma stop_key_collision_counterexample :
  ["a,b"] <> ["a"; "b"] /\
  llmStringKey (echo_llm true []) (Some ["a,b"]) =
    llmStringKey (echo_llm true []) (Some ["a"; "b"]) /\
  (let st1 := snd (generate (echo_llm true []) (PArray ["q"]) (Some ["a"; "b"]) []
                     (fun _ => 0) (mkSt ∅ [] 0)) in
   let r2 := generate (echo_llm true []) (PArray ["q"]) (Some ["a,b"]) []
               (fun _ => 0) (mkSt (store st1) [] (next_run st1)) in
   backend_calls (trace st1) = [["q"]] /\
   backend_calls (trace (snd r2)) = [] /\
   fst r2 = inr (mkLLMResult [Some [mkGeneration "out:q" None]] (Some []) None)).
Proof.
  split; [discriminate |].
  split; [reflexivity |].
  vm_compute. repeat split.
Qed.

(* ================================================================== *)
(** * More of [llms/base.ts] and [callbacks/base.ts] *)

(* ------------------------------------------------------------------ *)
(** ** Object operations *)

(** [ToBoolean v]. A number is carried with its [ToString] rendering, in
    which [0] and [-0] both render as "0". *)
Definition truthy (v : Val) : bool :=
  match v with
  | VUndef | VNull => false
  | VBool b => b
  | VNum r => negb (String.eqb r "0" || String.eqb r "NaN")
  | VStr s => negb (String.eqb s "")
  | VArr _ | VObj _ => true
  end.

(** [typeof v === "object"]. *)
Definition typeof_object (v : Val) : bool :=
  match v with
  | VNull | VArr _ | VObj _ => true
  | _ => false
  end.

(** [a ?? b]. *)
Definition coalesce (a b : Val) : Val :=
  match a with
  | VUndef | VNull => b
  | _ => a
  end.

(** [o[k]] on a plain object: [undefined] when [k] is absent. *)
Fixpoint obj_get (k : string) (o : Obj) : Val :=
  match o with
  | [] => VUndef
  | (k', v) :: o' => if String.eqb k k' then v else obj_get k o'
  end.

(** [v.k] on a value that is not [null] or [undefined]: the own property
    of an object; none of the keys read below is a property of a
    primitive or of an array. *)
Definition get_prop (v : Val) (k : string) : Val :=
  match v with
  | VObj fields => obj_get k fields
  | _ => VUndef
  end.

(** [Object.assign(target, src)], and equally [{...target, ...src}]:
    the entries of [src] assigned in order. *)
Definition obj_assign (target src : Obj) : Obj :=
  fold_left (fun acc kv => obj_set kv.1 kv.2 acc) src target.

(** [const { a, b, ...rest } = o]: [rest] gets the other own entries. *)
Definition obj_rest (ks : list string) (o : Obj) : Obj :=
  List.filter (fun kv => negb (existsb (String.eqb kv.1) ks)) o.

(* ------------------------------------------------------------------ *)
(** ** The [BaseLLM] constructor *)

(** What [this.cache] is set to: a value of the argument (a [BaseCache]
    instance is an object), or [InMemoryCache.global()]. *)
Inductive CacheField :=
| CFValue (v : Val)
| CFGlobal.

(** [if (typeof cache === "object") this.cache = cache;
     else if (cache) this.cache = InMemoryCache.global();
     else this.cache = undefined;] *)
Definition select_cache (cache : Val) : CacheField :=
  if typeof_object cache then CFValue cache
  else if truthy cache then CFGlobal
  else CFValue VUndef.

(** [!this.cache] is false: the instance caches. *)
Definition cache_enabled (f : CacheField) : bool :=
  match f with
  | CFValue v => truthy v
  | CFGlobal => true
  end.

(** [constructor({ cache, concurrency, ...rest })]: the parameters
    handed to [super], and [this.cache]. *)
Definition super_params (params : Obj) : Obj :=
  let concurrency := obj_get "concurrency" params in
  let rest := obj_rest ["cache"; "concurrency"] params in
  if truthy concurrency
  then obj_assign [("maxConcurrency", concurrency)] rest
  else rest.

Definition constructed_cache (params : Obj) : CacheField :=
  select_cache (obj_get "cache" params).

(* ------------------------------------------------------------------ *)
(** ** [BaseLLM.call] *)

(** [const { generations } = await this.generate([prompt], stop,
     callbacks); return generations[0][0].text;] Reading a property of
    [undefined] throws a [TypeError]. *)
Definition call (m : BaseLLM) (prompt : string) (stop : option (list string))
    (cbs : list string) (lat : nat -> nat) : M string :=
  do r <- generate m (PArray [prompt]) stop cbs lat;
  match generations r !! 0 with
  | Some (Some gs) =>
      match gs !! 0 with
      | Some g => ret (text g)
      | None => throw (TypeError "Cannot read properties of undefined (reading 'text')")
      end
  | _ => throw (TypeError "Cannot read properties of undefined (reading '0')")
  end.

(* ------------------------------------------------------------------ *)
(** ** Loading a serialized record *)

(** A field of the record as the [SerializedLLM] type has it: a string or
    absent; [None] for any other value. *)
Definition field_string (v : Val) : option (option string) :=
  match v with
  | VUndef => Some None
  | VStr s => Some (Some s)
  | _ => None
  end.

(** [const { _type, _model, ...rest } = data], for a record whose
    [_type] and [_model] are strings or absent. *)
Definition destructure (data : Obj) : option SerializedLLM :=
  match field_string (obj_get "_model" data), field_string (obj_get "_type" data) with
  | Some md, Some ty => Some (mkSerializedLLM md ty (obj_rest ["_type"; "_model"] data))
  | _, _ => None
  end.

(** [BaseLLM.deserialize(data)] on a plain record. *)
Definition load (data : Obj) : option (Exn + Loaded) :=
  option_map deserialize (destructure data).

(* ------------------------------------------------------------------ *)
(** ** [BaseCallbackHandler] *)

(** The class a handler was built from: a subclass of
    [BaseCallbackHandler] with no constructor of its own (it forwards
    [input] to [super]) and its class-field initialisers, or the
    [Handler] class that [fromMethods(methods)] defines. The initialisers
    run anew at each construction: given the number of ids drawn so far,
    they give the fields and the number of ids drawn after them (an
    initialiser such as [name = uuidv4()] draws one). *)
Inductive HandlerClass :=
| Subclass (fields : nat -> Obj * nat)
| FromMethods (methods : Obj).

Record Handler := mkHandler {
  handler_class : HandlerClass;
  props : Obj
}.

Section Handlers.

(** [uuidv4()]: the [n]-th id drawn. *)
Variable uuid : nat -> string.

(** The [BaseCallbackHandler] constructor: the three class fields, then
    [this.ignoreX = input.ignoreX ?? this.ignoreX] when [input] is
    given. *)
Definition base_handler_props (input : Val) : Obj :=
  let this := [("ignoreLLM", VBool false); ("ignoreChain", VBool false);
               ("ignoreAgent", VBool false)] in
  if truthy input then
    let this := obj_set "ignoreLLM"
                  (coalesce (get_prop input "ignoreLLM") (obj_get "ignoreLLM" this)) this in
    let this := obj_set "ignoreChain"
                  (coalesce (get_prop input "ignoreChain") (obj_get "ignoreChain" this)) this in
    obj_set "ignoreAgent"
      (coalesce (get_prop input "ignoreAgent") (obj_get "ignoreAgent" this)) this
  else this.

(** [new C(input)], with [n] ids drawn so far. A subclass initialises its
    own fields after [super(input)] returns. [Handler]'s constructor takes
    no argument: [super()], then its field [name = uuidv4()], then
    [Object.assign(this, methods)]. *)
Definition new_handler (cls : HandlerClass) (input : Val) (n : nat) : Handler * nat :=
  match cls with
  | Subclass fields =>
      let '(fs, n') := fields n in
      (mkHandler cls (obj_assign (base_handler_props input) fs), n')
  | FromMethods methods =>
      (mkHandler cls (obj_assign (obj_set "name" (VStr (uuid n)) (base_handler_props VUndef))
                        methods), S n)
  end.

(** [copy()] = [new this.constructor(this)]. *)
Definition copy (h : Handler) (n : nat) : Handler * nat :=
  new_handler (handler_class h) (VObj (props h)) n.

(** [BaseCallbackHandler.fromMethods(methods)]. *)
Definition fromMethods (methods : Obj) (n : nat) : Handler * nat :=
  new_handler (FromMethods methods) VUndef n.

End Handlers.

(* ------------------------------------------------------------------ *)
(** ** Object lemmas *)

Lemma obj_get_set (k k' : string) (v : Val) (o : Obj) :
  obj_get k (obj_set k' v o) = if String.eqb k k' then v else obj_get k o.
Proof.
  induction o as [| [k0 v0] o IH]; simpl.
  - reflexivity.
  - destruct (String.eqb k' k0) eqn:E0; simpl.
    + apply String.eqb_eq in E0. subst k0. destruct (String.eqb k k'); reflexivity.
    + rewrite IH. destruct (String.eqb k k0) eqn:E1, (String.eqb k k') eqn:E2;
        try reflexivity.
      apply String.eqb_eq in E1, E2. subst. rewrite String.eqb_refl in E0. discriminate.
Qed.

Lemma obj_get_notin (k : string) (o : Obj) :
  ~ In k (map fst o) -> obj_get k o = VUndef.
Proof.
  induction o as [| [k0 v0] o IH]; simpl; intros H; [reflexivity |].
  destruct (String.eqb k k0) eqn:E.
  - apply String.eqb_eq in E. subst. exfalso. apply H. left. reflexivity.
  - apply IH. intros Hin. apply H. right. exact Hin.
Qed.

Lemma obj_assign_get_notin (k : string) (acc l : Obj) :
  ~ In k (map fst l) -> obj_get k (obj_assign acc l) = obj_get k acc.
Proof.
  unfold obj_assign. revert acc. induction l as [| [k0 v0] l IH]; intros acc H; simpl.
  - reflexivity.
  - rewrite IH by (intros Hin; apply H; right; exact Hin).
    rewrite obj_get_set. simpl in H.
    destruct (String.eqb k k0) eqn:E; [| reflexivity].
    apply String.eqb_eq in E. subst. exfalso. apply H. left. reflexivity.
Qed.

Lemma obj_assign_get_in (k : string) (acc l : Obj) :
  List.NoDup (map fst l) -> In k (map fst l) ->
  obj_get k (obj_assign acc l) = obj_get k l.
Proof.
  unfold obj_assign. revert acc. induction l as [| [k0 v0] l IH]; intros acc Hnd H; simpl in *.
  - contradiction.
  - inversion Hnd as [| ? ? Hn Hd]; subst.
    destruct (String.eqb k k0) eqn:E.
    + apply String.eqb_eq in E. subst k0.
      pose proof (obj_assign_get_notin k (obj_set k v0 acc) l Hn) as Hna.
      unfold obj_assign in Hna. rewrite Hna, obj_get_set, String.eqb_refl. reflexivity.
    + destruct H as [H | H]; [subst; rewrite String.eqb_refl in E; discriminate |].
      apply IH; assumption.
Qed.

(** Assigning the same entries onto two objects gives the same value at
    [k] when [k] is assigned, or when the objects agree at [k]. *)
Lemma obj_assign_get_compat (k : string) (acc acc' l : Obj) :
  In k (map fst l) \/ obj_get k acc = obj_get k acc' ->
  obj_get k (obj_assign acc l) = obj_get k (obj_assign acc' l).
Proof.
  unfold obj_assign. revert acc acc'.
  induction l as [| [k0 v0] l IH]; intros acc acc' H; simpl in *.
  - destruct H as [[] | H]. exact H.
  - apply IH. rewrite !obj_get_set.
    destruct (String.eqb k k0) eqn:E; [right; reflexivity |].
    destruct H as [[H | H] | H]; [| left; exact H | right; exact H].
    subst. rewrite String.eqb_refl in E. discriminate.
Qed.

Lemma obj_set_keys_eq (k : string) (v : Val) (o o' : Obj) :
  map fst o = map fst o' -> map fst (obj_set k v o) = map fst (obj_set k v o').
Proof.
  revert o'. induction o as [| [k0 v0] o IH]; intros [| [k1 v1] o'] H; simpl in *;
    try discriminate; [reflexivity |].
  injection H as -> H. destruct (String.eqb k k1); simpl; [rewrite H; reflexivity |].
  f_equal. apply IH. exact H.
Qed.

Lemma obj_assign_keys_eq (acc acc' l : Obj) :
  map fst acc = map fst acc' -> map fst (obj_assign acc l) = map fst (obj_assign acc' l).
Proof.
  unfold obj_assign. revert acc acc'. induction l as [| kv l IH]; intros acc acc' H; simpl.
  - exact H.
  - apply IH. apply obj_set_keys_eq. exact H.
Qed.

Lemma obj_assign_nodup (acc l : Obj) :
  List.NoDup (map fst acc) -> List.NoDup (map fst (obj_assign acc l)).
Proof.
  unfold obj_assign. revert acc. induction l as [| kv l IH]; intros acc H; simpl.
  - exact H.
  - apply IH. apply obj_set_nodup. exact H.
Qed.

Lemma obj_assign_keys (acc l : Obj) (k : string) :
  In k (map fst (obj_assign acc l)) -> In k (map fst acc) \/ In k (map fst l).
Proof.
  unfold obj_assign. revert acc. induction l as [| [k0 v0] l IH]; intros acc H; simpl in *.
  - left. exact H.
  - destruct (IH _ H) as [H1 | H1]; [| right; right; exact H1].
    apply obj_set_keys in H1 as [H1 | H1]; [right; left; symmetry; exact H1 | left; exact H1].
Qed.

(** Two objects with the same keys, distinct, and the same values are
    equal. *)
Lemma obj_ext (o o' : Obj) :
  map fst o = map fst o' -> List.NoDup (map fst o) ->
  (forall k, obj_get k o = obj_get k o') -> o = o'.
Proof.
  revert o'. induction o as [| [k v] o IH]; intros [| [k' v'] o'] Hk Hnd Hg;
    simpl in *; try discriminate; [reflexivity |].
  injection Hk as <- Hk. inversion Hnd as [| ? ? Hn Hd]; subst.
  pose proof (Hg k) as Hv. rewrite String.eqb_refl in Hv. subst v'.
  f_equal. apply IH; [exact Hk | exact Hd |].
  intros k0. specialize (Hg k0).
  destruct (String.eqb k0 k) eqn:E; [| exact Hg].
  apply String.eqb_eq in E. subst k0.
  rewrite !obj_get_notin; [reflexivity | rewrite <- Hk; exact Hn | exact Hn].
Qed.

Lemma obj_set_fresh (k : string) (v : Val) (o : Obj) :
  ~ In k (map fst o) -> obj_set k v o = (o ++ [(k, v)])%list.
Proof.
  induction o as [| [k0 v0] o IH]; simpl; intros H; [reflexivity |].
  destruct (String.eqb k k0) eqn:E.
  - apply String.eqb_eq in E. subst. exfalso. apply H. left. reflexivity.
  - f_equal. apply IH. intros Hin. apply H. right. exact Hin.
Qed.

(** Assigning entries with fresh, distinct keys appends them. *)
Lemma obj_assign_fresh (acc l : Obj) :
  List.NoDup (map fst l) -> (forall k, In k (map fst l) -> ~ In k (map fst acc)) ->
  obj_assign acc l = (acc ++ l)%list.
Proof.
  unfold obj_assign. revert acc. induction l as [| [k v] l IH]; intros acc Hnd Hfr; simpl.
  - rewrite app_nil_r. reflexivity.
  - inversion Hnd as [| ? ? Hn Hd]; subst.
    rewrite obj_set_fresh by (apply Hfr; left; reflexivity).
    rewrite IH; [rewrite <- app_assoc; reflexivity | exact Hd |].
    intros k0 Hk0. rewrite map_app. simpl. intros Hin.
    apply in_app_or in Hin as [Hin | [Hin | []]].
    + exact (Hfr k0 (or_intror Hk0) Hin).
    + subst. contradiction.
Qed.

Lemma obj_spread_id (o : Obj) : List.NoDup (map fst o) -> obj_spread o = o.
Proof.
  intros Hnd. change (obj_assign [] o = o).
  rewrite obj_assign_fresh; [reflexivity | exact Hnd | intros k _ []].
Qed.

Lemma obj_rest_get (ks : list string) (k : string) (o : Obj) :
  obj_get k (obj_rest ks o) = if existsb (String.eqb k) ks then VUndef else obj_get k o.
Proof.
  unfold obj_rest. induction o as [| [k0 v0] o IH]; simpl.
  - destruct (existsb _ _); reflexivity.
  - destruct (existsb (String.eqb k0) ks) eqn:E0; simpl.
    + rewrite IH. destruct (existsb (String.eqb k) ks) eqn:E1; [reflexivity |].
      destruct (String.eqb k k0) eqn:E2; [| reflexivity].
      apply String.eqb_eq in E2. subst. congruence.
    + destruct (String.eqb k k0) eqn:E2.
      * apply String.eqb_eq in E2. subst. rewrite E0. reflexivity.
      * exact IH.
Qed.

Lemma obj_rest_keys (ks : list string) (o : Obj) (k : string) :
  In k (map fst (obj_rest ks o)) -> In k (map fst o) /\ ~ In k ks.
Proof.
  unfold obj_rest. intros H. apply in_map_iff in H as [[k0 v0] [<- H]].
  apply filter_In in H as [H1 H2]. simpl in *. split.
  - apply in_map_iff. exists (k0, v0). split; [reflexivity | exact H1].
  - intros Hin. apply negb_true_iff in H2.
    assert (existsb (String.eqb k0) ks = true).
    { apply existsb_exists. exists k0. split; [exact Hin | apply String.eqb_refl]. }
    congruence.
Qed.

Lemma obj_rest_nodup (ks : list string) (o : Obj) :
  List.NoDup (map fst o) -> List.NoDup (map fst (obj_rest ks o)).
Proof.
  unfold obj_rest. induction o as [| [k0 v0] o IH]; simpl; intros H; [constructor |].
  inversion H as [| ? ? Hn Hd]; subst.
  destruct (negb _); simpl; [| apply IH; exact Hd].
  constructor; [| apply IH; exact Hd].
  intros Hin. apply Hn. apply in_map_iff in Hin as [[k1 v1] [<- Hin]].
  apply filter_In in Hin as [Hin _]. apply in_map_iff. exists (k1, v1). auto.
Qed.

Lemma obj_rest_id (ks : list string) (o : Obj) :
  (forall k, In k (map fst o) -> ~ In k ks) -> obj_rest ks o = o.
Proof.
  unfold obj_rest. induction o as [| [k0 v0] o IH]; simpl; intros H; [reflexivity |].
  assert (E : existsb (String.eqb k0) ks = false).
  { destruct (existsb (String.eqb k0) ks) eqn:E; [| reflexivity].
    apply existsb_exists in E as [x [Hx Ex]]. apply String.eqb_eq in Ex. subst.
    exfalso. exact (H x (or_introl eq_refl) Hx). }
  rewrite E. simpl. f_equal. apply IH. intros k Hk. apply H. right. exact Hk.
Qed.

Lemma obj_rest_set (ks : list string) (k : string) (v : Val) (o : Obj) :
  In k ks -> obj_rest ks (obj_set k v o) = obj_rest ks o.
Proof.
  intros Hk. unfold obj_rest.
  assert (E : existsb (String.eqb k) ks = true).
  { apply existsb_exists. exists k. split; [exact Hk | apply String.eqb_refl]. }
  induction o as [| [k0 v0] o IH]; simpl.
  - rewrite E. reflexivity.
  - destruct (String.eqb k k0) eqn:E0; simpl.
    + apply String.eqb_eq in E0. subst. rewrite E. reflexivity.
    + rewrite IH. reflexivity.
Qed.

(* ------------------------------------------------------------------ *)
(** ** The constructor *)

(** X1: the instance caches ([!this.cache] is false) exactly when the
    [cache] argument is truthy; a [null] argument, although of type
    "object" and stored as is, disables caching, and [generate] on such
    an instance takes the uncached path. *)
Theorem constructor_cache_enabled (params : Obj) :
  cache_enabled (constructed_cache params) = truthy (obj_get "cache" params) /\
  forall m ps stop cbs lat,
    cache m = cache_enabled (constructed_cache params) ->
    truthy (obj_get "cache" params) = false ->
    generate m (PArray ps) stop cbs lat = _generateUncached m ps stop cbs.
Proof.
  assert (Hc : cache_enabled (constructed_cache params) = truthy (obj_get "cache" params)).
  { unfold constructed_cache, select_cache.
    destruct (obj_get "cache" params) as [| | b | r | s | l | f]; simpl; try reflexivity.
    - destruct b; reflexivity.
    - destruct (negb _); reflexivity.
    - destruct (negb _); reflexivity. }
  split; [exact Hc |].
  intros m ps stop cbs lat Hm Hf. unfold generate. rewrite Hm, Hc, Hf. reflexivity.
Qed.

Lemma constructor_cache_enabled_witness :
  cache (echo_llm false []) = cache_enabled (constructed_cache [("cache", VNull)]) /\
  truthy (obj_get "cache" [("cache", VNull)]) = false /\
  generate (echo_llm false []) (PArray ["p"]) None [] (fun _ => 0) =
    _generateUncached (echo_llm false []) ["p"] None [].
Proof.
  split; [reflexivity | split; [reflexivity |]].
  apply (proj2 (constructor_cache_enabled [("cache", VNull)])); reflexivity.
Defined.

(** X2: the parameters the constructor hands to [super] never carry
    [cache] or [concurrency]; [maxConcurrency] is the caller's own
    [maxConcurrency] when given (it wins over the deprecated
    [concurrency]), else [concurrency] when that is truthy, else absent;
    every other parameter is passed unchanged. *)
Theorem constructor_super_params (params : Obj) :
  List.NoDup (map fst params) ->
  ~ In "cache" (map fst (super_params params)) /\
  ~ In "concurrency" (map fst (super_params params)) /\
  obj_get "maxConcurrency" (super_params params) =
    (if existsb (String.eqb "maxConcurrency") (map fst params)
     then obj_get "maxConcurrency" params
     else if truthy (obj_get "concurrency" params) then obj_get "concurrency" params
     else VUndef) /\
  (forall k, k <> "cache" -> k <> "concurrency" -> k <> "maxConcurrency" ->
     obj_get k (super_params params) = obj_get k params).
Proof.
  intros Hnd.
  set (rest := obj_rest ["cache"; "concurrency"] params).
  assert (Hrk : forall k, In k (map fst rest) -> k <> "cache" /\ k <> "concurrency").
  { intros k Hk. apply obj_rest_keys in Hk as [_ Hk]. simpl in Hk. intuition. }
  assert (Hrnd : List.NoDup (map fst rest)) by (apply obj_rest_nodup; exact Hnd).
  assert (Hrget : forall k, k <> "cache" -> k <> "concurrency" ->
                            obj_get k rest = obj_get k params).
  { intros k H1 H2. unfold rest. rewrite obj_rest_get. simpl.
    apply String.eqb_neq in H1, H2. rewrite H1, H2. reflexivity. }
  assert (Hkeys : forall k, In k (map fst (super_params params)) ->
                            k <> "cache" /\ k <> "concurrency").
  { intros k Hk. unfold super_params in Hk. fold rest in Hk.
    destruct (truthy (obj_get "concurrency" params)).
    - apply obj_assign_keys in Hk as [[<- | []] | Hk]; [split; discriminate |].
      exact (Hrk k Hk).
    - exact (Hrk k Hk). }
  split; [intros H; exact (proj1 (Hkeys _ H) eq_refl) |].
  split; [intros H; exact (proj2 (Hkeys _ H) eq_refl) |].
  assert (Hmc : In "maxConcurrency" (map fst rest) <->
                In "maxConcurrency" (map fst params)).
  { split.
    - intros H. apply obj_rest_keys in H as [H _]. exact H.
    - intros H. apply in_map_iff in H as [[k v] [Hk H]]. simpl in Hk. subst k.
      apply in_map_iff. exists ("maxConcurrency", v). split; [reflexivity |].
      unfold rest, obj_rest. apply filter_In. split; [exact H | reflexivity]. }
  split.
  - unfold super_params. fold rest.
    destruct (existsb (String.eqb "maxConcurrency") (map fst params)) eqn:E.
    + apply existsb_exists in E as [x [Hx Ex]]. apply String.eqb_eq in Ex. subst x.
      destruct (truthy (obj_get "concurrency" params)).
      * rewrite obj_assign_get_in; [| exact Hrnd | apply Hmc; exact Hx].
        apply Hrget; discriminate.
      * apply Hrget; discriminate.
    + assert (Hn : ~ In "maxConcurrency" (map fst rest)).
      { intros H. apply Hmc in H.
        assert (existsb (String.eqb "maxConcurrency") (map fst params) = true).
        { apply existsb_exists. exists "maxConcurrency". split; [exact H | reflexivity]. }
        congruence. }
      destruct (truthy (obj_get "concurrency" params)).
      * rewrite obj_assign_get_notin by exact Hn. reflexivity.
      * apply obj_get_notin. exact Hn.
  - intros k H1 H2 H3. unfold super_params. fold rest.
    destruct (truthy (obj_get "concurrency" params)); [| apply Hrget; assumption].
    destruct (in_dec string_dec k (map fst rest)) as [Hin | Hin].
    + rewrite obj_assign_get_in by assumption. apply Hrget; assumption.
    + rewrite obj_assign_get_notin by exact Hin. simpl.
      apply String.eqb_neq in H3. rewrite H3.
      symmetry. rewrite <- (Hrget k H1 H2). apply obj_get_notin. exact Hin.
Qed.

Lemma constructor_super_params_witness :
  List.NoDup (map fst [("concurrency", VNum "4"); ("maxConcurrency", VNum "2");
                       ("cache", VBool true); ("verbose", VBool true)]) /\
  obj_get "maxConcurrency"
    (super_params [("concurrency", VNum "4"); ("maxConcurrency", VNum "2");
                   ("cache", VBool true); ("verbose", VBool true)]) = VNum "2".
Proof.
  assert (Hnd : List.NoDup (map fst [("concurrency", VNum "4"); ("maxConcurrency", VNum "2");
                       ("cache", VBool true); ("verbose", VBool true)])).
  { simpl. repeat constructor; simpl; intuition discriminate. }
  split; [exact Hnd |].
  destruct (constructor_super_params _ Hnd) as [_ [_ [H _]]].
  rewrite H. reflexivity.
Defined.

(* ------------------------------------------------------------------ *)
(** ** [serialize] and loading it back *)

Lemma serialize_get (m : BaseLLM) (k : string) :
  List.NoDup (map fst (_identifyingParams m)) ->
  obj_get k (serialize m) =
    if String.eqb k "_model" then VStr "base_llm"
    else if String.eqb k "_type" then VStr (_llmType m)
    else obj_get k (_identifyingParams m).
Proof.
  intros Hnd. unfold serialize. rewrite !obj_get_set.
  destruct (String.eqb k "_model"); [reflexivity |].
  destruct (String.eqb k "_type"); [reflexivity |].
  rewrite obj_spread_id by exact Hnd. reflexivity.
Qed.

(** X3: [serialize()] records the instance's own [_type] and [_model]
    ("base_llm"), even when the identifying parameters carry keys of
    those names; every other identifying parameter is kept with its
    value. *)
Theorem serialize_fields (m : BaseLLM) :
  List.NoDup (map fst (_identifyingParams m)) ->
  obj_get "_type" (serialize m) = VStr (_llmType m) /\
  obj_get "_model" (serialize m) = VStr "base_llm" /\
  forall k, k <> "_type" -> k <> "_model" ->
    obj_get k (serialize m) = obj_get k (_identifyingParams m).
Proof.
  intros Hnd. rewrite !(serialize_get m _ Hnd). simpl. split; [reflexivity |].
  split; [reflexivity |].
  intros k H1 H2. rewrite serialize_get by exact Hnd.
  apply String.eqb_neq in H1, H2. rewrite H1, H2. reflexivity.
Qed.

Lemma serialize_fields_witness :
  List.NoDup (map fst (_identifyingParams davinci_llm)) /\
  obj_get "_type" (serialize davinci_llm) = VStr "openai" /\
  obj_get "modelName" (serialize davinci_llm) = VStr "text-davinci-003".
Proof.
  assert (Hnd : List.NoDup (map fst (_identifyingParams davinci_llm))).
  { simpl. repeat constructor; simpl; intuition discriminate. }
  destruct (serialize_fields davinci_llm Hnd) as [Ht [_ Hk]].
  split; [exact Hnd | split; [exact Ht |]].
  rewrite Hk by discriminate. reflexivity.
Defined.

Lemma destructure_serialize (m : BaseLLM) :
  List.NoDup (map fst (_identifyingParams m)) ->
  ~ In "_type" (map fst (_identifyingParams m)) ->
  ~ In "_model" (map fst (_identifyingParams m)) ->
  destructure (serialize m) =
    Some (mkSerializedLLM (Some "base_llm") (Some (_llmType m)) (_identifyingParams m)).
Proof.
  intros Hnd Ht Hm. unfold destructure.
  rewrite !(serialize_get m _ Hnd). simpl.
  unfold serialize. rewrite !obj_rest_set by (simpl; auto).
  rewrite obj_spread_id by exact Hnd.
  rewrite obj_rest_id; [reflexivity |].
  intros k Hk [<- | [<- | []]]; contradiction.
Qed.

(** X4: loading what [serialize()] produced passes the model check, and
    the type is then looked up in [{ openai: OpenAI }]: for "openai" it
    rebuilds an [OpenAI] from exactly the identifying parameters; for
    "constructor" the lookup finds [Object] and it returns a plain copy
    of them; for any other member name of [Object.prototype] it fails
    with a [TypeError]; for every other type it fails with the
    unknown-type error. The identifying parameters have distinct keys,
    none named [_type] or [_model]. *)
Theorem serialize_load_round_trip (m : BaseLLM) :
  List.NoDup (map fst (_identifyingParams m)) ->
  ~ In "_type" (map fst (_identifyingParams m)) ->
  ~ In "_model" (map fst (_identifyingParams m)) ->
  (_llmType m = "openai" ->
     load (serialize m) = Some (inr (LoadedOpenAI (_identifyingParams m)))) /\
  (_llmType m = "constructor" ->
     load (serialize m) = Some (inr (LoadedObject (_identifyingParams m)))) /\
  (In (_llmType m) object_prototype_members -> _llmType m <> "constructor" ->
     load (serialize m) = Some (inl (TypeError "Cls is not a constructor"))) /\
  (_llmType m <> "openai" -> ~ In (_llmType m) object_prototype_members ->
     load (serialize m) =
       Some (inl (Error (String.append "Cannot load  LLM with type " (_llmType m))))).
Proof.
  intros Hnd Ht Hm. unfold load. rewrite destructure_serialize by assumption.
  simpl. unfold deserialize. simpl.
  remember (_llmType m) as t eqn:Et. clear Et.
  split; [| split; [| split]].
  - intros ->. reflexivity.
  - intros ->. reflexivity.
  - intros Hin Hne. simpl in Hin.
    repeat (destruct Hin as [<- | Hin]; [try contradiction; reflexivity |]).
    destruct Hin.
  - intros Ho Hin. unfold registry_lookup.
    destruct (String.eqb_spec t "openai") as [-> | _]; [contradiction |].
    destruct (existsb (String.eqb t) object_prototype_members) eqn:E; [| reflexivity].
    apply existsb_exists in E as [x [Hx Ex]]. apply String.eqb_eq in Ex. subst x.
    contradiction.
Qed.

Lemma serialize_load_round_trip_witness :
  load (serialize davinci_llm) = Some (inr (LoadedOpenAI (_identifyingParams davinci_llm))) /\
  load (serialize (echo_llm true [])) =
    Some (inl (Error (String.append "Cannot load  LLM with type " "echo"))).
Proof.
  assert (H : List.NoDup (map fst (_identifyingParams davinci_llm)) /\
              ~ In "_type" (map fst (_identifyingParams davinci_llm)) /\
              ~ In "_model" (map fst (_identifyingParams davinci_llm))).
  { simpl. split; [repeat constructor; simpl; intuition discriminate |].
    split; intuition discriminate. }
  destruct H as [H1 [H2 H3]]. split.
  - apply (proj1 (serialize_load_round_trip davinci_llm H1 H2 H3)). reflexivity.
  - apply (proj2 (proj2 (proj2 (serialize_load_round_trip (echo_llm true [])
             (List.NoDup_nil _) (fun H => H) (fun H => H))))).
    + discriminate.
    + simpl. intuition discriminate.
Defined.

(* ------------------------------------------------------------------ *)
(** ** [call] *)

Lemma completion_order_one (lat : nat -> nat) : completion_order lat 1 = [0].
Proof. reflexivity. Qed.

(** [call] on a cached instance whose cache holds [gs] for the prompt. *)
Lemma call_hit_eq (m : BaseLLM) (p : string) (stop : option (list string))
    (cbs : list string) (lat : nat -> nat) (st : St) (gs : list Generation) :
  cache m = true ->
  stored (store st) p (llmStringKey m stop) = Some gs ->
  call m p stop cbs lat st =
    (match gs with
     | [] => inl (TypeError "Cannot read properties of undefined (reading 'text')")
     | g :: _ => inr (text g)
     end,
     mkSt (store st) (trace st ++ [EvLookup p (llmStringKey m stop)])%list (next_run st)).
Proof.
  intros Hc Hs. unfold call, bind at 1.
  rewrite (generate_cached_eq _ _ _ _ _ _ Hc). cbv zeta. cbn [map length].
  rewrite Hs, completion_order_one. simpl.
  destruct gs; reflexivity.
Qed.

(** The cache writes past the end of [missingPromptIndices = [0]] are
    all for the prompt [undefined]. *)
Lemma splice_results_tail (ps : list string) (key : string) (i : nat)
    (res gens : list (option (list Generation))) (st : St) :
  exists s' tr,
    splice_results ps key [0] (S i) res gens st = (inr gens, mkSt s' tr (next_run st)) /\
    forall q, s' !! (Some q, key) = store st !! (Some q, key).
Proof.
  revert i st. induction res as [| g res IH]; intros i st; simpl.
  - exists (store st), (trace st). split; [destruct st; reflexivity | reflexivity].
  - unfold bind. simpl.
    destruct (IH (S i) (mkSt (<[(None, key) := g]> (store st))
                             (trace st ++ [EvUpdate None key g]) (next_run st)))
      as [s' [tr [Heq Hq]]].
    rewrite Heq. exists s', tr. split; [reflexivity |].
    intros q. rewrite Hq. simpl. rewrite lookup_insert_ne; [reflexivity | congruence].
Qed.

(** [call] on a cached instance whose cache misses the prompt: the
    uncached path runs on [[prompt]] and its first entry is cached. *)
Lemma call_miss_eq (m : BaseLLM) (p : string) (stop : option (list string))
    (cbs : list string) (lat : nat -> nat) (st : St) :
  cache m = true ->
  stored (store st) p (llmStringKey m stop) = None ->
  let key := llmStringKey m stop in
  let st1 := mkSt (store st) (trace st ++ [EvLookup p key])%list (next_run st) in
  (exists e st', call m p stop cbs lat st = (inl e, st') /\
                 _generateUncached m [p] stop cbs st1 = (inl e, snd (_generateUncached m [p] stop cbs st1))) \/
  (exists out, fst (_generateUncached m [p] stop cbs st1) = inr out /\
     match generations out with
     | [] => fst (call m p stop cbs lat st) =
               inl (TypeError "Cannot read properties of undefined (reading '0')")
     | g0 :: _ =>
         fst (call m p stop cbs lat st) =
           match g0 with
           | Some (g :: _) => inr (text g)
           | Some [] => inl (TypeError "Cannot read properties of undefined (reading 'text')")
           | None => inl (TypeError "Cannot read properties of undefined (reading '0')")
           end /\
         stored (store (snd (call m p stop cbs lat st))) p key = g0
     end).
Proof.
  intros Hc Hs key st1.
  remember (call m p stop cbs lat st) as C eqn:HC.
  unfold call, bind at 1 in HC.
  rewrite (generate_cached_eq _ _ _ _ _ _ Hc) in HC. cbv zeta in HC. cbn [map length] in HC.
  fold key in Hs, HC. rewrite Hs, completion_order_one in HC. simpl in HC.
  fold st1 in HC. unfold bind at 1 in HC.
  destruct (_generateUncached m [p] stop cbs st1) as [[e | out] st2] eqn:Hu.
  - left. exists e, st2. split; [exact HC | reflexivity].
  - right. exists out. split; [reflexivity |].
    unfold bind in HC. simpl in HC.
    destruct (generations out) as [| g0 rest]; simpl in HC.
    + rewrite HC. reflexivity.
    + destruct (splice_results_tail [p] key 0 rest [g0]
                  (mkSt (<[(Some p, key) := g0]> (store st2))
                        (trace st2 ++ [EvUpdate (Some p) key g0]) (next_run st2)))
        as [s' [tr [Heq Hq]]].
      unfold bind in HC. simpl in HC. rewrite Heq in HC. simpl in HC.
      assert (Hst : stored s' p key = g0).
      { unfold stored. rewrite Hq. simpl. rewrite lookup_insert_eq.
        destruct g0; reflexivity. }
      destruct g0 as [[| g gs] |]; simpl in HC; subst C; simpl; split;
        try reflexivity; exact Hst.
Qed.

(** A successful [call] on a cached instance leaves the prompt cached
    with a candidate list that starts with the returned text. *)
Lemma call_success_caches (m : BaseLLM) (p : string) (stop : option (list string))
    (cbs : list string) (lat : nat -> nat) (st : St) (t : string) :
  cache m = true ->
  fst (call m p stop cbs lat st) = inr t ->
  exists g gs, stored (store (snd (call m p stop cbs lat st))) p (llmStringKey m stop) =
                 Some (g :: gs) /\ text g = t.
Proof.
  intros Hc Hr.
  destruct (stored (store st) p (llmStringKey m stop)) as [gs |] eqn:Hs.
  - rewrite (call_hit_eq _ _ _ _ _ _ _ Hc Hs) in *. simpl in *.
    destruct gs as [| g gs]; [discriminate |]. injection Hr as <-.
    exists g, gs. split; [exact Hs | reflexivity].
  - destruct (call_miss_eq m p stop cbs lat st Hc Hs) as [[e [st' [Heq _]]] | [out [_ Hout]]].
    + rewrite Heq in Hr. discriminate.
    + destruct (generations out) as [| g0 rest]; [congruence |].
      destruct Hout as [Hr' Hst]. rewrite Hr in Hr'.
      destruct g0 as [[| g gs] |]; try discriminate.
      injection Hr' as ->. exists g, gs. split; [exact Hst | reflexivity].
Qed.

Lemma generateUncached_fst (m : BaseLLM) (ps : list string)
    (stop : option (list string)) (cbs : list string) (st : St) :
  fst (_generateUncached m ps stop cbs st) = uncached_result m ps stop (run_handle m cbs st).
Proof. rewrite generateUncached_eq. reflexivity. Qed.

(** X5: [call] on an [LLM] subclass instance, when the prompt is not
    served from the cache (no cache, or a miss), returns exactly what
    [_call] returns for the prompt: its text, or its error rethrown. *)
Theorem call_returns_call_outcome (m : BaseLLM)
    (_call : string -> option (list string) -> option RunManager -> Exn + string)
    (p : string) (stop : option (list string)) (cbs : list string)
    (lat : nat -> nat) (st : St) :
  _generate m = LLM_generate _call ->
  (cache m = false \/ stored (store st) p (llmStringKey m stop) = None) ->
  fst (call m p stop cbs lat st) = _call p stop (run_handle m cbs st).
Proof.
  intros Hg Hmiss.
  assert (Hu : forall st', next_run st' = next_run st ->
            fst (_generateUncached m [p] stop cbs st') =
            match _call p stop (run_handle m cbs st) with
            | inl e => inl e
            | inr t => inr (mkLLMResult [Some [mkGeneration t None]] None
                                        (option_map runId (run_handle m cbs st)))
            end).
  { intros st' Hn. rewrite generateUncached_fst.
    assert (Hr : run_handle m cbs st' = run_handle m cbs st)
      by (unfold run_handle; rewrite Hn; reflexivity).
    rewrite Hr. unfold uncached_result. rewrite Hg. unfold LLM_generate. simpl.
    destruct (_call p stop (run_handle m cbs st)); reflexivity. }
  destruct (cache m) eqn:Hc.
  - destruct Hmiss as [Hf | Hs]; [discriminate |].
    pose proof (Hu (mkSt (store st) (trace st ++ [EvLookup p (llmStringKey m stop)])%list
                         (next_run st)) eq_refl) as Hu1.
    destruct (call_miss_eq m p stop cbs lat st Hc Hs) as [[e [st' [Heq He]]] | [out [Hout Hr]]];
      cbv zeta in *.
    + apply (f_equal fst) in He. simpl in He. rewrite Hu1 in He.
      rewrite Heq. simpl.
      destruct (_call p stop (run_handle m cbs st)); [| discriminate].
      injection He as ->. reflexivity.
    + rewrite Hu1 in Hout.
      destruct (_call p stop (run_handle m cbs st)) as [e | t]; [discriminate |].
      injection Hout as <-. simpl in Hr. destruct Hr as [Hr _]. exact Hr.
  - unfold call, bind at 1, generate. rewrite Hc. simpl.
    destruct (_generateUncached m [p] stop cbs st) as [r st'] eqn:Heq.
    pose proof (Hu st eq_refl) as Hf. rewrite Heq in Hf. simpl in Hf. subst r.
    destruct (_call p stop (run_handle m cbs st)); reflexivity.
Qed.

Lemma call_returns_call_outcome_witness :
  fst (call (echo_llm false []) "q" None [] (fun _ => 0) (mkSt ∅ [] 0)) = inr "out:q".
Proof.
  rewrite (call_returns_call_outcome (echo_llm false []) echo_call "q" None [] (fun _ => 0)
             (mkSt ∅ [] 0) eq_refl (or_introl eq_refl)).
  reflexivity.
Defined.

(** X6: on a cached instance, once [call(prompt, stop)] has returned a
    text, calling it again with the same prompt and stop list returns the
    same text from the cache: the only effect is the lookup, with no
    backend call, no notification and no cache write, whatever callbacks
    are passed. *)
Theorem call_cache_round_trip (m : BaseLLM) (p : string) (stop : option (list string))
    (cbs cbs' : list string) (lat lat' : nat -> nat) (st : St) (t : string) :
  cache m = true ->
  fst (call m p stop cbs lat st) = inr t ->
  call m p stop cbs' lat' (snd (call m p stop cbs lat st)) =
    (inr t, mkSt (store (snd (call m p stop cbs lat st)))
                 (trace (snd (call m p stop cbs lat st)) ++
                  [EvLookup p (llmStringKey m stop)])%list
                 (next_run (snd (call m p stop cbs lat st)))).
Proof.
  intros Hc Hr.
  destruct (call_success_caches m p stop cbs lat st t Hc Hr) as [g [gs [Hs <-]]].
  rewrite (call_hit_eq _ _ _ _ _ _ _ Hc Hs). reflexivity.
Qed.

Lemma call_cache_round_trip_witness :
  call (echo_llm true []) "q" None [] (fun _ => 0)
       (snd (call (echo_llm true []) "q" None [] (fun _ => 0) (mkSt ∅ [] 0))) =
    (inr "out:q",
     mkSt (store (snd (call (echo_llm true []) "q" None [] (fun _ => 0) (mkSt ∅ [] 0))))
          (trace (snd (call (echo_llm true []) "q" None [] (fun _ => 0) (mkSt ∅ [] 0))) ++
           [EvLookup "q" (llmStringKey (echo_llm true []) None)])%list
          (next_run (snd (call (echo_llm true []) "q" None [] (fun _ => 0) (mkSt ∅ [] 0))))).
Proof.
  apply call_cache_round_trip; [reflexivity | vm_compute; reflexivity].
Defined.

(** X7: [call] on a cached instance whose cache holds a candidate list
    for the prompt answers from it without calling the backend: the text
    of the first candidate, or a [TypeError] when the cached list is
    empty; the only effect is the lookup. *)
Theorem call_served_from_cache (m : BaseLLM) (p : string) (stop : option (list string))
    (cbs : list string) (lat : nat -> nat) (st : St) (gs : list Generation) :
  cache m = true ->
  stored (store st) p (llmStringKey m stop) = Some gs ->
  call m p stop cbs lat st =
    (match gs with
     | [] => inl (TypeError "Cannot read properties of undefined (reading 'text')")
     | g :: _ => inr (text g)
     end,
     mkSt (store st) (trace st ++ [EvLookup p (llmStringKey m stop)])%list (next_run st)).
Proof. intros Hc Hs. exact (call_hit_eq m p stop cbs lat st gs Hc Hs). Qed.

Definition empty_entry_store : gmap (option string * string) (option (list Generation)) :=
  <[(Some "q", llmStringKey (echo_llm true []) None) := Some []]> ∅.

Lemma call_served_from_cache_witness :
  call (echo_llm true []) "q" None [] (fun _ => 0) (mkSt empty_entry_store [] 0) =
    (inl (TypeError "Cannot read properties of undefined (reading 'text')"),
     mkSt empty_entry_store [EvLookup "q" (llmStringKey (echo_llm true []) None)] 0).
Proof.
  apply (call_served_from_cache (echo_llm true []) "q" None [] (fun _ => 0)
           (mkSt empty_entry_store [] 0) []);
    [reflexivity | vm_compute; reflexivity].
Defined.

(* ------------------------------------------------------------------ *)
(** ** The merged generations of the cached path *)

Lemma lookup_In {A} (l : list A) (i : nat) (x : A) : l !! i = Some x -> In x l.
Proof. intros H. apply list_elem_of_In. exact (list_elem_of_lookup_2 _ _ _ H). Qed.

Lemma In_lookup {A} (l : list A) (x : A) : In x l -> exists i, l !! i = Some x.
Proof. intros H. apply list_elem_of_lookup_1. apply list_elem_of_In. exact H. Qed.

Lemma splice_results_length (ps : list string) (key : string) (missing : list nat)
    (index : nat) (res gens gens' : list (option (list Generation))) (st st' : St) :
  splice_results ps key missing index res gens st = (inr gens', st') ->
  length gens' = length gens.
Proof.
  revert index gens st. induction res as [| g res IH]; intros index gens st H; simpl in H.
  - injection H as <- _. reflexivity.
  - destruct (missing !! index) as [pi |]; unfold bind in H; simpl in H.
    + rewrite (IH _ _ _ H). apply length_insert.
    + exact (IH _ _ _ H).
Qed.

(** [splice_results] from position [index] only writes the prompt
    indices [missing[index..]]. *)
Lemma splice_results_other (ps : list string) (key : string) (missing : list nat)
    (index : nat) (res gens gens' : list (option (list Generation))) (st st' : St)
    (i : nat) :
  splice_results ps key missing index res gens st = (inr gens', st') ->
  ~ In i (drop index missing) ->
  gens' !! i = gens !! i.
Proof.
  revert index gens st. induction res as [| g res IH]; intros index gens st H Hi; simpl in H.
  - injection H as <- _. reflexivity.
  - destruct (missing !! index) as [pi |] eqn:Hpi; unfold bind in H; simpl in H.
    + rewrite (IH _ _ _ H).
      * apply list_lookup_insert_ne. intros <-. apply Hi.
        rewrite (drop_S _ _ _ Hpi). left. reflexivity.
      * rewrite (drop_S _ _ _ Hpi) in Hi. intros Hin. apply Hi. right. exact Hin.
    + apply (IH _ _ _ H). rewrite drop_ge in *; [intros [] | apply lookup_ge_None in Hpi; lia..].
Qed.

(** With distinct indices in [missing], the entry at position
    [index + idx] of [missing] gets [res[idx]], or keeps its value when
    [res] has no such entry. *)
Lemma splice_results_at (ps : list string) (key : string) (missing : list nat)
    (index : nat) (res gens gens' : list (option (list Generation))) (st st' : St) :
  List.NoDup missing ->
  (forall i, In i missing -> i < length gens) ->
  splice_results ps key missing index res gens st = (inr gens', st') ->
  forall idx i, missing !! (index + idx) = Some i ->
    gens' !! i = match res !! idx with Some g => Some g | None => gens !! i end.
Proof.
  intros Hnd Hb. apply NoDup_ListNoDup in Hnd.
  revert index gens st Hb. induction res as [| g res IH];
    intros index gens st Hb H idx i Hi; simpl in H.
  - injection H as <- _. rewrite lookup_nil. reflexivity.
  - destruct (missing !! index) as [pi |] eqn:Hpi; unfold bind in H; simpl in H.
    + assert (Hb' : forall j, In j missing -> j < length (<[pi := g]> gens))
        by (intros j Hj; rewrite length_insert; apply Hb; exact Hj).
      destruct idx as [| idx].
      * rewrite Nat.add_0_r, Hpi in Hi. injection Hi as <-. simpl.
        rewrite (splice_results_other _ _ _ _ _ _ _ _ _ pi H).
        -- apply list_lookup_insert_eq. apply Hb. exact (lookup_In _ _ _ Hpi).
        -- intros Hin. apply In_lookup in Hin as [j Hj].
           rewrite lookup_drop in Hj.
           pose proof (NoDup_lookup _ _ _ _ Hnd Hpi Hj). lia.
      * rewrite (IH _ _ _ Hb' H idx i) by (rewrite <- Hi; f_equal; lia).
        simpl. destruct (res !! idx); [reflexivity |].
        apply list_lookup_insert_ne. intros ->.
        pose proof (NoDup_lookup _ _ _ _ Hnd Hpi Hi). lia.
    + apply lookup_ge_None in Hpi. rewrite lookup_ge_None_2 in Hi; [discriminate | lia].
Qed.

Lemma missing_indices_nodup (lookups : list (option (list Generation)))
    (lat : nat -> nat) (n : nat) :
  List.NoDup (missing_indices lookups (completion_order lat n)).
Proof.
  unfold missing_indices. apply List.NoDup_filter.
  apply (Permutation_NoDup (Permutation_sym (completion_order_perm lat n))).
  apply seq_NoDup.
Qed.

(** X8: with a cache, a successful [generate] returns one entry per
    prompt, whatever number of entries the backend returns. *)
Theorem generate_cached_length (m : BaseLLM) (ps : list string)
    (stop : option (list string)) (cbs : list string) (lat : nat -> nat)
    (st : St) (r : LLMResult) :
  cache m = true ->
  fst (generate m (PArray ps) stop cbs lat st) = inr r ->
  length (generations r) = length ps.
Proof.
  intros Hc Hr. rewrite (generate_cached_eq _ _ _ _ _ _ Hc) in Hr. cbv zeta in Hr.
  destruct (Nat.ltb _ _).
  - unfold bind in Hr.
    destruct (_generateUncached _ _ _ _ _) as [[e | res] st2]; [discriminate |].
    destruct (splice_results _ _ _ _ _ _ st2) as [[e | gens] st3] eqn:Hs; [discriminate |].
    simpl in Hr. injection Hr as <-. simpl.
    rewrite (splice_results_length _ _ _ _ _ _ _ _ _ Hs). apply length_map.
  - simpl in Hr. injection Hr as <-. apply length_map.
Qed.

(** A backend that answers every batch with two entries. *)
Definition two_entry_llm : BaseLLM :=
  mkBaseLLM "two" [] true [] false
    (fun _ _ _ => ([], inr (mkLLMResult [Some [mkGeneration "a" None];
                                        Some [mkGeneration "b" None]] None None))).

Lemma generate_cached_length_witness :
  length (generations (mkLLMResult [Some [mkGeneration "a" None]] (Some []) None)) = 1.
Proof.
  apply (generate_cached_length two_entry_llm ["q"] None [] (fun _ => 0) (mkSt ∅ [] 0));
    [reflexivity | vm_compute; reflexivity].
Defined.

(** X9: with a cache, a successful [generate] keeps every cache hit at
    its prompt's index, whatever the backend returns for the misses. *)
Theorem generate_keeps_hits (m : BaseLLM) (ps : list string)
    (stop : option (list string)) (cbs : list string) (lat : nat -> nat)
    (st : St) (r : LLMResult) (i : nat) (p : string) (g : list Generation) :
  cache m = true ->
  ps !! i = Some p ->
  stored (store st) p (llmStringKey m stop) = Some g ->
  fst (generate m (PArray ps) stop cbs lat st) = inr r ->
  generations r !! i = Some (Some g).
Proof.
  intros Hc Hp Hg Hr. rewrite (generate_cached_eq _ _ _ _ _ _ Hc) in Hr. cbv zeta in Hr.
  assert (Hl : map (fun p => stored (store st) p (llmStringKey m stop)) ps !! i = Some (Some g)).
  { rewrite list_lookup_fmap, Hp. simpl. rewrite Hg. reflexivity. }
  destruct (Nat.ltb _ _).
  - unfold bind in Hr.
    destruct (_generateUncached _ _ _ _ _) as [[e | res] st2]; [discriminate |].
    destruct (splice_results _ _ _ _ _ _ st2) as [[e | gens] st3] eqn:Hs; [discriminate |].
    simpl in Hr. injection Hr as <-. simpl.
    rewrite (splice_results_other _ _ _ _ _ _ _ _ _ i Hs); [exact Hl |].
    rewrite drop_0. unfold missing_indices. intros Hin.
    apply filter_In in Hin as [_ Hin]. rewrite Hl in Hin. discriminate.
  - simpl in Hr. injection Hr as <-. exact Hl.
Qed.

Lemma generate_keeps_hits_witness :
  generations (mkLLMResult [Some [mkGeneration "a" None]; Some [mkGeneration "cached2" None];
                            Some [mkGeneration "b" None]] (Some []) None) !! 1 =
    Some (Some [mkGeneration "cached2" None]).
Proof.
  apply (generate_keeps_hits (mkBaseLLM "echo" [] true [] false (_generate two_entry_llm))
           ["p1"; "p2"; "p3"] None [] (fun _ => 0) (mkSt p2_store [] 0) _ 1 "p2");
    [reflexivity | reflexivity | vm_compute; reflexivity | vm_compute; reflexivity].
Defined.

(** X10: with a cache, a successful [generate] with misses calls the
    backend once, on the missed prompts in some order of the miss
    positions; the [idx]-th entry the backend returns lands at the index
    of the [idx]-th missed prompt, and a missed prompt for which the
    backend returned no entry stays [undefined]. *)
Theorem generate_splices_misses (m : BaseLLM) (ps : list string)
    (stop : option (list string)) (cbs : list string) (lat : nat -> nat)
    (st : St) (r : LLMResult) :
  cache m = true ->
  fst (generate m (PArray ps) stop cbs lat st) = inr r ->
  exists order,
    Permutation order (miss_positions ps (store st) (llmStringKey m stop)) /\
    ((order = [] /\
      generations r = map (fun p => stored (store st) p (llmStringKey m stop)) ps) \/
     (exists rh out,
        snd (_generate m (omap (fun i => ps !! i) order) stop rh) = inr out /\
        forall idx i, order !! idx = Some i ->
          generations r !! i = Some (default None (generations out !! idx)))).
Proof.
  intros Hc Hr. rewrite (generate_cached_eq _ _ _ _ _ _ Hc) in Hr. cbv zeta in Hr.
  pose proof (missing_indices_perm ps (store st) (llmStringKey m stop) lat) as Hperm.
  pose proof (missing_indices_nodup
                (map (fun p => stored (store st) p (llmStringKey m stop)) ps)
                lat (length ps)) as Hnd.
  pose proof (missing_indices_bound
                (map (fun p => stored (store st) p (llmStringKey m stop)) ps)
                lat (length ps)) as Hbound.
  set (key := llmStringKey m stop) in *.
  set (lookups := map (fun p => stored (store st) p key) ps) in *.
  set (missing := missing_indices lookups (completion_order lat (length ps))) in *.
  exists missing. split; [exact Hperm |].
  destruct (Nat.ltb 0 (length missing)) eqn:Hlt.
  - right. unfold bind in Hr. rewrite generateUncached_eq in Hr.
    unfold uncached_result in Hr.
    set (qs := omap (fun i => ps !! i) missing) in *.
    set (rh := run_handle m cbs _) in Hr.
    destruct (snd (_generate m qs stop rh)) as [e | out] eqn:Hg; [discriminate |].
    destruct (splice_results _ _ _ _ _ _ _) as [[e | gens] st3] eqn:Hs; [discriminate |].
    simpl in Hr. injection Hr as <-. simpl.
    exists rh, out. split; [exact Hg |].
    intros idx i Hi.
    assert (Hlen : i < length lookups).
    { unfold lookups. rewrite length_map. apply Hbound.
      exact (lookup_In _ _ _ Hi). }
    rewrite (splice_results_at _ _ _ _ _ _ _ _ _ Hnd
               (fun j Hj => ltac:(unfold lookups; rewrite length_map; exact (Hbound j Hj)))
               Hs idx i Hi).
    cbn [generations]. fold lookups.
    destruct (generations out !! idx) as [g |]; [reflexivity |].
    simpl. destruct (lookups !! i) as [l |] eqn:Hli;
      [| apply lookup_ge_None in Hli; lia].
    assert (Hm : In i missing) by exact (lookup_In _ _ _ Hi).
    unfold missing, missing_indices in Hm. apply filter_In in Hm as [_ Hm].
    rewrite Hli in Hm. destruct l; [discriminate | reflexivity].
  - left. split.
    + apply Nat.ltb_ge in Hlt. destruct missing; [reflexivity | simpl in Hlt; lia].
    + simpl in Hr. injection Hr as <-. reflexivity.
Qed.

Lemma generate_splices_misses_witness :
  exists order,
    Permutation order (miss_positions ["p1"; "p2"; "p3"] p2_store
                         (llmStringKey (echo_llm true []) None)) /\
    ((order = [] /\
      generations (mkLLMResult [Some [mkGeneration "out:p1" None];
                                Some [mkGeneration "cached2" None];
                                Some [mkGeneration "out:p3" None]] (Some []) None) =
        map (fun p => stored p2_store p (llmStringKey (echo_llm true []) None))
            ["p1"; "p2"; "p3"]) \/
     (exists rh out,
        snd (_generate (echo_llm true []) (omap (fun i => ["p1"; "p2"; "p3"] !! i) order)
                       None rh) = inr out /\
        forall idx i, order !! idx = Some i ->
          generations (mkLLMResult [Some [mkGeneration "out:p1" None];
                                    Some [mkGeneration "cached2" None];
                                    Some [mkGeneration "out:p3" None]] (Some []) None) !! i =
            Some (default None (generations out !! idx)))).
Proof.
  apply (generate_splices_misses (echo_llm true []) ["p1"; "p2"; "p3"] None []
           (fun _ => 0) (mkSt p2_store [] 0));
    [reflexivity | vm_compute; reflexivity].
Defined.

(* ------------------------------------------------------------------ *)
(** ** What the uncached path never does, and empty batches *)

(** The cache operations among some effects. *)
Definition is_cache_event (ev : Event) : bool :=
  match ev with
  | EvLookup _ _ | EvUpdate _ _ _ => true
  | _ => false
  end.

Lemma uncached_trace_no_cache_events (m : BaseLLM) (ps : list string)
    (stop : option (list string)) (rh : option RunManager) :
  List.filter is_cache_event (uncached_trace m ps stop rh) = [].
Proof.
  unfold uncached_trace. destruct (_generate m ps stop rh) as [toks outcome].
  rewrite !List.filter_app.
  assert (Ht : List.filter is_cache_event (token_events rh toks) = []).
  { destruct rh; simpl; [| reflexivity].
    induction toks; simpl; [reflexivity | exact IHtoks]. }
  rewrite Ht. destruct rh, outcome; reflexivity.
Qed.

Lemma backend_calls_uncached (m : BaseLLM) (ps : list string)
    (stop : option (list string)) (rh : option RunManager) :
  backend_calls (uncached_trace m ps stop rh) = [ps].
Proof.
  unfold uncached_trace, backend_calls. destruct (_generate m ps stop rh) as [toks outcome].
  rewrite !omap_app.
  assert (Ht : forall n, omap (fun ev => match ev with
                                         | EvBackend qs _ => Some qs
                                         | _ => None
                                         end) (map (EvLLMNewToken n) toks) = []).
  { intros n. induction toks; simpl; [reflexivity | exact IHtoks]. }
  destruct rh; simpl; rewrite ?Ht; destruct outcome; reflexivity.
Qed.

Lemma backend_calls_app (l1 l2 : list Event) :
  backend_calls (l1 ++ l2) = (backend_calls l1 ++ backend_calls l2)%list.
Proof. unfold backend_calls. apply omap_app. Qed.

Lemma backend_calls_lookups (key : string) (ps : list string) :
  backend_calls (map (fun p => EvLookup p key) ps) = [].
Proof. induction ps as [| p ps IH]; [reflexivity | exact IH]. Qed.

Lemma backend_calls_splice_updates (ps : list string) (key : string)
    (missing : list nat) (index : nat) (res : list (option (list Generation))) :
  backend_calls (splice_updates ps key missing index res) = [].
Proof.
  revert index. induction res as [| g res IH]; intros index; [reflexivity |].
  exact (IH (S index)).
Qed.

(* ------------------------------------------------------------------ *)
(** ** The record [generate] returns on a miss *)

(** C10: with a cache and at least one miss, a successful [generate]
    calls the backend once in this call, on the missed prompts (in an
    order of the miss positions) with the run handle of this call, and
    returns a fresh record: one entry per prompt, the cached result at
    each hit, the backend's [idx]-th entry at the [idx]-th missed
    position (or [undefined] when the backend gave none), the
    [llmOutput] of that backend result ([{}] when it had none), and no
    [__run] field, whatever run id the uncached path attached. *)
Theorem generate_result_omits_run (m : BaseLLM) (ps : list string)
    (stop : option (list string)) (cbs : list string) (lat : nat -> nat)
    (st : St) (i : nat) (p : string) (r : LLMResult) :
  cache m = true ->
  ps !! i = Some p ->
  stored (store st) p (llmStringKey m stop) = None ->
  fst (generate m (PArray ps) stop cbs lat st) = inr r ->
  exists order out evs,
    Permutation order (miss_positions ps (store st) (llmStringKey m stop)) /\
    trace (snd (generate m (PArray ps) stop cbs lat st)) = (trace st ++ evs)%list /\
    backend_calls evs = [omap (fun j => ps !! j) order] /\
    snd (_generate m (omap (fun j => ps !! j) order) stop (run_handle m cbs st)) = inr out /\
    length (generations r) = length ps /\
    (forall j q, ps !! j = Some q -> ~ In j order ->
       generations r !! j = Some (stored (store st) q (llmStringKey m stop))) /\
    (forall idx j, order !! idx = Some j ->
       generations r !! j = Some (default None (generations out !! idx))) /\
    llmOutput r = Some (default [] (llmOutput out)) /\
    __run r = None.
Proof.
  intros Hc Hi Hp Hr.
  rewrite (generate_cached_eq _ _ _ _ _ _ Hc) in *. cbv zeta in *.
  pose proof (missing_indices_perm ps (store st) (llmStringKey m stop) lat) as Hperm.
  pose proof (missing_indices_nodup
                (map (fun p => stored (store st) p (llmStringKey m stop)) ps)
                lat (length ps)) as Hnd.
  pose proof (missing_indices_bound
                (map (fun p => stored (store st) p (llmStringKey m stop)) ps)
                lat (length ps)) as Hbound.
  set (key := llmStringKey m stop) in *.
  set (lookups := map (fun p => stored (store st) p key) ps) in *.
  set (missing := missing_indices lookups (completion_order lat (length ps))) in *.
  assert (Hin : In i missing).
  { apply (Permutation_in _ (Permutation_sym Hperm)).
    unfold miss_positions. apply filter_In. split.
    - apply in_seq. apply lookup_lt_Some in Hi. lia.
    - rewrite Hi, Hp. reflexivity. }
  assert (Hlt : Nat.ltb 0 (length missing) = true).
  { destruct missing; [contradiction | reflexivity]. }
  rewrite Hlt in *. unfold bind in *. rewrite generateUncached_eq in *.
  unfold uncached_result in *.
  set (qs := omap (fun i => ps !! i) missing) in *.
  change (run_handle m cbs (mkSt (store st) (trace st ++ map (fun p => EvLookup p key) ps)
                                 (next_run st)))
    with (run_handle m cbs st) in *.
  destruct (snd (_generate m qs stop (run_handle m cbs st))) as [e | out] eqn:Hg;
    [simpl in Hr; discriminate |].
  match goal with
  | |- context [splice_results ?a ?b ?c ?d ?e ?f ?g] =>
      destruct (splice_results_eq a b c d e f g) as [gens' [s' Hs]];
      rewrite Hs in *
  end.
  simpl in Hr. injection Hr as <-.
  assert (Hlen : forall j, In j missing -> j < length lookups)
    by (intros j Hj; unfold lookups; rewrite length_map; exact (Hbound j Hj)).
  exists missing, out. eexists.
  split; [exact Hperm |].
  split; [simpl; rewrite <- !app_assoc; reflexivity |].
  split.
  { rewrite !backend_calls_app, backend_calls_lookups, backend_calls_splice_updates,
      backend_calls_uncached. reflexivity. }
  split; [exact Hg |].
  cbn [generations llmOutput __run].
  split; [| split; [| split; [| split]]].
  - rewrite (splice_results_length _ _ _ _ _ _ _ _ _ Hs). apply length_map.
  - intros j q Hj Hn.
    rewrite (splice_results_other _ _ _ _ _ _ _ _ _ j Hs) by (rewrite drop_0; exact Hn).
    unfold lookups. rewrite list_lookup_fmap, Hj. reflexivity.
  - intros idx j Hj.
    rewrite (splice_results_at _ _ _ _ _ _ _ _ _ Hnd Hlen Hs idx j Hj).
    cbn [generations].
    destruct (generations out !! idx) as [g |]; [reflexivity |].
    simpl. destruct (lookups !! j) as [l |] eqn:Hlj;
      [| apply lookup_ge_None in Hlj; pose proof (Hlen j (lookup_In _ _ _ Hj)); lia].
    assert (Hm : In j missing) by exact (lookup_In _ _ _ Hj).
    unfold missing, missing_indices in Hm. apply filter_In in Hm as [_ Hm].
    rewrite Hlj in Hm. destruct l; [discriminate | reflexivity].
  - reflexivity.
  - reflexivity.
Qed.

Lemma generate_result_omits_run_witness :
  exists order out evs,
    Permutation order (miss_positions ["p1"; "p2"; "p3"] p2_store
                         (llmStringKey (echo_llm true ["h"]) None)) /\
    trace (snd (generate (echo_llm true ["h"]) (PArray ["p1"; "p2"; "p3"]) None []
                         (fun _ => 0) (mkSt p2_store [] 0))) = ([] ++ evs)%list /\
    backend_calls evs = [omap (fun j => ["p1"; "p2"; "p3"] !! j) order] /\
    snd (_generate (echo_llm true ["h"]) (omap (fun j => ["p1"; "p2"; "p3"] !! j) order)
                   None (run_handle (echo_llm true ["h"]) [] (mkSt p2_store [] 0))) =
      inr out /\
    length (generations (mkLLMResult [Some [mkGeneration "out:p1" None];
                                      Some [mkGeneration "cached2" None];
                                      Some [mkGeneration "out:p3" None]] (Some []) None)) =
      length ["p1"; "p2"; "p3"] /\
    (forall j q, ["p1"; "p2"; "p3"] !! j = Some q -> ~ In j order ->
       generations (mkLLMResult [Some [mkGeneration "out:p1" None];
                                 Some [mkGeneration "cached2" None];
                                 Some [mkGeneration "out:p3" None]] (Some []) None) !! j =
         Some (stored p2_store q (llmStringKey (echo_llm true ["h"]) None))) /\
    (forall idx j, order !! idx = Some j ->
       generations (mkLLMResult [Some [mkGeneration "out:p1" None];
                                 Some [mkGeneration "cached2" None];
                                 Some [mkGeneration "out:p3" None]] (Some []) None) !! j =
         Some (default None (generations out !! idx))) /\
    llmOutput (mkLLMResult [Some [mkGeneration "out:p1" None];
                            Some [mkGeneration "cached2" None];
                            Some [mkGeneration "out:p3" None]] (Some []) None) =
      Some (default [] (llmOutput out)) /\
    __run (mkLLMResult [Some [mkGeneration "out:p1" None];
                        Some [mkGeneration "cached2" None];
                        Some [mkGeneration "out:p3" None]] (Some []) None) = None.
Proof.
  apply (generate_result_omits_run (echo_llm true ["h"]) ["p1"; "p2"; "p3"] None []
           (fun _ => 0) (mkSt p2_store [] 0) 0 "p1");
    [reflexivity | reflexivity | vm_compute; reflexivity | vm_compute; reflexivity].
Defined.

(** X11: an instance without a cache never touches the store: [generate]
    leaves it unchanged and performs no cache lookup and no cache
    write. *)
Theorem generate_uncached_no_cache_effects (m : BaseLLM) (ps : list string)
    (stop : option (list string)) (cbs : list string) (lat : nat -> nat) (st : St) :
  cache m = false ->
  store (snd (generate m (PArray ps) stop cbs lat st)) = store st /\
  exists evs, trace (snd (generate m (PArray ps) stop cbs lat st)) = (trace st ++ evs)%list /\
              List.filter is_cache_event evs = [].
Proof.
  intros Hc. unfold generate. rewrite Hc. simpl. rewrite generateUncached_eq. simpl.
  split; [reflexivity |].
  eexists. split; [reflexivity | apply uncached_trace_no_cache_events].
Qed.

Lemma generate_uncached_no_cache_effects_witness :
  store (snd (generate (echo_llm false []) (PArray ["p1"]) None [] (fun _ => 0)
                       (mkSt cached_store [] 0))) = cached_store.
Proof.
  exact (proj1 (generate_uncached_no_cache_effects (echo_llm false []) ["p1"] None []
                  (fun _ => 0) (mkSt cached_store [] 0) eq_refl)).
Defined.

(** X12: on an empty batch, an instance with a cache returns the empty
    result ([generations] empty, [llmOutput] {}) with no effect at all,
    while an instance without one still invokes the backend, once, with
    no prompts. *)
Theorem generate_empty_batch (m : BaseLLM) (stop : option (list string))
    (cbs : list string) (lat : nat -> nat) (st : St) :
  (cache m = true ->
   generate m (PArray []) stop cbs lat st = (inr (mkLLMResult [] (Some []) None), st)) /\
  (cache m = false ->
   backend_calls (trace (snd (generate m (PArray []) stop cbs lat st))) =
     (backend_calls (trace st) ++ [[]])%list).
Proof.
  split; intros Hc.
  - rewrite (generate_cached_eq _ _ _ _ _ _ Hc). simpl.
    rewrite app_nil_r. destruct st; reflexivity.
  - unfold generate. rewrite Hc. simpl. rewrite generateUncached_eq. simpl.
    unfold backend_calls at 1. rewrite omap_app. fold (backend_calls (trace st)).
    fold (backend_calls (uncached_trace m [] stop (run_handle m cbs st))).
    rewrite backend_calls_uncached. reflexivity.
Qed.

Lemma generate_empty_batch_witness :
  generate (echo_llm true []) (PArray []) None [] (fun _ => 0) (mkSt ∅ [] 0) =
    (inr (mkLLMResult [] (Some []) None), mkSt ∅ [] 0) /\
  backend_calls (trace (snd (generate (echo_llm false []) (PArray []) None [] (fun _ => 0)
                                      (mkSt ∅ [] 0)))) = ([] ++ [[]])%list.
Proof.
  split.
  - exact (proj1 (generate_empty_batch (echo_llm true []) None [] (fun _ => 0) (mkSt ∅ [] 0))
             eq_refl).
  - exact (proj2 (generate_empty_batch (echo_llm false []) None [] (fun _ => 0) (mkSt ∅ [] 0))
             eq_refl).
Defined.

(* ------------------------------------------------------------------ *)
(** ** The adapter's loop *)

(** X13: when [_call] succeeds on a prefix of the prompts and then fails
    on the next prompt with [e], [LLM._generate] fails with [e], whatever
    [_call] would do on the prompts after it. *)
Theorem LLM_generate_first_failure
    (_call : string -> option (list string) -> option RunManager -> Exn + string)
    (pre post : list string) (p : string) (stop : option (list string))
    (rm : option RunManager) (e : Exn) :
  Forall (fun q => exists t, _call q stop rm = inr t) pre ->
  _call p stop rm = inl e ->
  snd (LLM_generate _call (pre ++ p :: post) stop rm) = inl e.
Proof.
  intros Hpre He. unfold LLM_generate. simpl.
  assert (Hl : llm_generate_loop _call (pre ++ p :: post) stop rm = inl e).
  { induction Hpre as [| q pre [t Ht] _ IH]; simpl.
    - rewrite He. reflexivity.
    - rewrite Ht, IH. reflexivity. }
  rewrite Hl. reflexivity.
Qed.

(** A single-prompt operation that fails on the prompt "bad". *)
Definition picky_call (p : string) (stop : option (list string))
    (rm : option RunManager) : Exn + string :=
  if String.eqb p "bad" then inl (Error "bad prompt") else inr p.

Lemma LLM_generate_first_failure_witness :
  snd (LLM_generate picky_call ["a"; "bad"; "c"] None None) = inl (Error "bad prompt").
Proof.
  apply (LLM_generate_first_failure picky_call ["a"] ["c"] "bad" None None).
  - repeat constructor. exists "a". reflexivity.
  - reflexivity.
Defined.

(* ------------------------------------------------------------------ *)
(** ** Handlers: construction and [copy] *)

(** The value the [BaseCallbackHandler] constructor gives the flag [k]. *)
Definition handler_flag (input : Val) (k : string) : Val :=
  if truthy input then coalesce (get_prop input k) (VBool false) else VBool false.

Definition handler_flags : list string := ["ignoreLLM"; "ignoreChain"; "ignoreAgent"].

Lemma base_handler_shape (input : Val) :
  base_handler_props input =
    [("ignoreLLM", handler_flag input "ignoreLLM");
     ("ignoreChain", handler_flag input "ignoreChain");
     ("ignoreAgent", handler_flag input "ignoreAgent")].
Proof. unfold base_handler_props, handler_flag. destruct (truthy input); reflexivity. Qed.

Lemma handler_flag_set (input : Val) (k : string) :
  coalesce (handler_flag input k) (VBool false) = handler_flag input k.
Proof.
  unfold handler_flag. destruct (truthy input); [| reflexivity].
  destruct (get_prop input k); reflexivity.
Qed.

Lemma base_handler_get (input : Val) (k : string) :
  obj_get k (base_handler_props input) =
    if existsb (String.eqb k) handler_flags then handler_flag input k else VUndef.
Proof.
  rewrite base_handler_shape. simpl.
  destruct (String.eqb k "ignoreLLM") eqn:E1;
    [apply String.eqb_eq in E1; subst; reflexivity |].
  destruct (String.eqb k "ignoreChain") eqn:E2;
    [apply String.eqb_eq in E2; subst; reflexivity |].
  destruct (String.eqb k "ignoreAgent") eqn:E3;
    [apply String.eqb_eq in E3; subst; reflexivity |].
  reflexivity.
Qed.

Lemma base_handler_nodup (input : Val) : List.NoDup (map fst (base_handler_props input)).
Proof.
  rewrite base_handler_shape. simpl. repeat constructor; simpl; intuition discriminate.
Qed.

(** An injective id source for the concrete runs. *)
Fixpoint tally (n : nat) : string :=
  match n with
  | O => ""
  | S n' => String "x" (tally n')
  end.

(** A handler class with the field initialiser [name = uuidv4()]. *)
Definition uuid_name_fields (n : nat) : Obj * nat := ([("name", VStr (tally n))], S n).

(** A handler class with a field of fixed value. *)
Definition console_fields (n : nat) : Obj * nat := ([("name", VStr "console")], n).

(** X14: [copy()] of a handler whose class has no constructor of its own
    builds a new instance of the class with the handler as input: the
    class-field initialisers run again (a field such as [name =
    uuidv4()] gets a fresh value), each ignore flag the fields do not set
    is copied from the handler's current value ([null] and [undefined]
    become [false]); when the fields have fixed values, a freshly
    constructed handler and its copy are identical. *)
Theorem copy_subclass_handler (uuid : nat -> string) (fields : nat -> Obj * nat) :
  (forall h n,
     handler_class h = Subclass fields ->
     handler_class (fst (copy uuid h n)) = Subclass fields /\
     snd (copy uuid h n) = snd (fields n)) /\
  (forall h n k,
     handler_class h = Subclass fields ->
     List.NoDup (map fst (fst (fields n))) -> In k (map fst (fst (fields n))) ->
     obj_get k (props (fst (copy uuid h n))) = obj_get k (fst (fields n))) /\
  (forall h n k,
     handler_class h = Subclass fields ->
     In k handler_flags -> ~ In k (map fst (fst (fields n))) ->
     obj_get k (props (fst (copy uuid h n))) = coalesce (obj_get k (props h)) (VBool false)) /\
  (forall o, (forall n, fields n = (o, n)) ->
   forall input n n',
     copy uuid (fst (new_handler uuid (Subclass fields) input n)) n' =
       (fst (new_handler uuid (Subclass fields) input n), n')).
Proof.
  split; [| split; [| split]].
  - intros [cls P] n Hcls. simpl in Hcls. subst cls. unfold copy. simpl.
    destruct (fields n) as [fs n']. split; reflexivity.
  - intros [cls P] n k Hcls Hnd Hk. simpl in Hcls. subst cls. unfold copy. simpl.
    destruct (fields n) as [fs n']. simpl in *.
    apply obj_assign_get_in; assumption.
  - intros [cls P] n k Hcls Hk Hn. simpl in Hcls. subst cls. unfold copy. simpl.
    destruct (fields n) as [fs n']. simpl in *.
    rewrite obj_assign_get_notin by exact Hn. rewrite base_handler_get.
    assert (E : existsb (String.eqb k) handler_flags = true).
    { apply existsb_exists. exists k. split; [exact Hk | apply String.eqb_refl]. }
    rewrite E. reflexivity.
  - intros o Hf input n n'. unfold copy, new_handler. rewrite Hf. simpl. rewrite Hf.
    f_equal. f_equal.
    apply obj_ext.
    + apply obj_assign_keys_eq. rewrite !base_handler_shape. reflexivity.
    + apply obj_assign_nodup. apply base_handler_nodup.
    + intros k. apply obj_assign_get_compat.
      destruct (in_dec string_dec k (map fst o)) as [Hin | Hin]; [left; exact Hin |].
      right. rewrite !base_handler_get.
      destruct (existsb (String.eqb k) handler_flags) eqn:E; [| reflexivity].
      unfold handler_flag at 1. simpl.
      rewrite obj_assign_get_notin by exact Hin. rewrite base_handler_get, E.
      apply handler_flag_set.
Qed.

Lemma copy_subclass_handler_witness :
  obj_get "name"
    (props (fst (copy tally (mkHandler (Subclass uuid_name_fields)
                               [("ignoreLLM", VBool true); ("name", VStr "")]) 1))) =
    VStr "x" /\
  obj_get "ignoreLLM"
    (props (fst (copy tally (mkHandler (Subclass uuid_name_fields)
                               [("ignoreLLM", VBool true); ("name", VStr "")]) 1))) =
    coalesce (obj_get "ignoreLLM" [("ignoreLLM", VBool true); ("name", VStr "")])
             (VBool false) /\
  copy tally (fst (new_handler tally (Subclass console_fields) VUndef 0)) 3 =
    (fst (new_handler tally (Subclass console_fields) VUndef 0), 3).
Proof.
  split; [| split].
  - apply (proj1 (proj2 (copy_subclass_handler tally uuid_name_fields))
             (mkHandler (Subclass uuid_name_fields)
                        [("ignoreLLM", VBool true); ("name", VStr "")]) 1 "name").
    + reflexivity.
    + simpl. repeat constructor. intros [].
    + simpl. auto.
  - apply (proj1 (proj2 (proj2 (copy_subclass_handler tally uuid_name_fields)))
             (mkHandler (Subclass uuid_name_fields)
                        [("ignoreLLM", VBool true); ("name", VStr "")]) 1 "ignoreLLM").
    + reflexivity.
    + simpl. auto.
    + simpl. intuition discriminate.
  - apply (proj2 (proj2 (proj2 (copy_subclass_handler tally console_fields)))
             [("name", VStr "console")]).
    intros n. reflexivity.
Defined.

(** X15: [copy()] of a handler built by [fromMethods(methods)] calls the
    [Handler] constructor, which ignores its argument: the copy draws a
    fresh [uuidv4()] name (unless [methods] has a [name]), takes the
    entries of [methods], and has each ignore flag that [methods] does
    not set back at [false], whatever the handler's current value. *)
Theorem copy_fromMethods_handler (uuid : nat -> string) (methods : Obj)
    (h : Handler) (n : nat) :
  handler_class h = FromMethods methods ->
  snd (copy uuid h n) = S n /\
  handler_class (fst (copy uuid h n)) = FromMethods methods /\
  (~ In "name" (map fst methods) ->
     obj_get "name" (props (fst (copy uuid h n))) = VStr (uuid n)) /\
  (List.NoDup (map fst methods) -> forall k, In k (map fst methods) ->
     obj_get k (props (fst (copy uuid h n))) = obj_get k methods) /\
  (forall k, In k handler_flags -> ~ In k (map fst methods) ->
     obj_get k (props (fst (copy uuid h n))) = VBool false).
Proof.
  destruct h as [cls P]. simpl. intros ->. unfold copy. simpl.
  split; [reflexivity |]. split; [reflexivity |]. split; [| split].
  - intros Hn. rewrite obj_assign_get_notin by exact Hn. reflexivity.
  - intros Hnd k Hk. apply obj_assign_get_in; assumption.
  - intros k Hk Hn. rewrite obj_assign_get_notin by exact Hn.
    destruct Hk as [<- | [<- | [<- | []]]]; reflexivity.
Qed.

Lemma copy_fromMethods_handler_witness :
  obj_get "ignoreLLM"
    (props (fst (copy tally (mkHandler (FromMethods [("handleText", VStr "f")])
                               [("ignoreLLM", VBool true); ("name", VStr "")]) 1))) =
  VBool false.
Proof.
  apply (proj2 (proj2 (proj2 (proj2
    (copy_fromMethods_handler tally [("handleText", VStr "f")]
       (mkHandler (FromMethods [("handleText", VStr "f")])
                  [("ignoreLLM", VBool true); ("name", VStr "")]) 1 eq_refl))))).
  - simpl. auto.
  - simpl. intuition discriminate.
Defined.

(* ------------------------------------------------------------------ *)
(** ** The key does not depend on the order of the identifying parameters *)

Lemma str_leb_trans (x y z : string) :
  String.leb x y = true -> String.leb y z = true -> String.leb x z = true.
Proof.
  unfold String.leb. revert y z.
  induction x as [| a x IH]; intros [| b y] [| c z]; simpl; try congruence; auto.
  unfold Ascii.compare.
  destruct (N.compare_spec (N_of_ascii a) (N_of_ascii b));
  destruct (N.compare_spec (N_of_ascii b) (N_of_ascii c));
  destruct (N.compare_spec (N_of_ascii a) (N_of_ascii c));
    try lia; try congruence; auto.
  intros Hxy Hyz. exact (IH y z Hxy Hyz).
Qed.

Lemma insert_sorted_perm (x : string) (l : list string) :
  Permutation (insert_sorted x l) (x :: l).
Proof.
  induction l as [| y l IH]; simpl; [reflexivity |].
  destruct (String.leb x y); [reflexivity |].
  rewrite IH. apply perm_swap.
Qed.

Lemma sort_strings_perm (l : list string) : Permutation (sort_strings l) l.
Proof.
  unfold sort_strings. induction l as [| x l IH]; simpl; [reflexivity |].
  rewrite insert_sorted_perm. constructor. exact IH.
Qed.

Lemma insert_sorted_sorted (x : string) (l : list string) :
  StronglySorted (fun a b => String.leb a b = true) l ->
  StronglySorted (fun a b => String.leb a b = true) (insert_sorted x l).
Proof.
  induction 1 as [| y l Hs IH Hf]; simpl.
  - repeat constructor.
  - destruct (String.leb x y) eqn:E.
    + constructor; [constructor; assumption |].
      constructor; [exact E |].
      apply List.Forall_forall. intros z Hz. apply (str_leb_trans x y z E).
      exact (proj1 (List.Forall_forall _ _) Hf z Hz).
    + constructor; [exact IH |].
      apply List.Forall_forall. intros z Hz.
      apply (Permutation_in _ (insert_sorted_perm x l)) in Hz as [<- | Hz].
      * destruct (String.leb_total y x) as [H | H]; [exact H | congruence].
      * exact (proj1 (List.Forall_forall _ _) Hf z Hz).
Qed.

Lemma sort_strings_sorted (l : list string) :
  StronglySorted (fun a b => String.leb a b = true) (sort_strings l).
Proof.
  unfold sort_strings. induction l as [| x l IH]; simpl; [constructor |].
  apply insert_sorted_sorted. exact IH.
Qed.

Lemma sorted_perm_unique (l1 l2 : list string) :
  StronglySorted (fun a b => String.leb a b = true) l1 ->
  StronglySorted (fun a b => String.leb a b = true) l2 ->
  Permutation l1 l2 -> l1 = l2.
Proof.
  intros H1. revert l2. induction H1 as [| a l1 Hs1 IH Hf1]; intros l2 H2 Hp.
  - symmetry. apply Permutation_nil. exact Hp.
  - destruct H2 as [| b l2 Hs2 Hf2].
    + apply Permutation_sym, Permutation_nil in Hp. discriminate.
    + assert (Hab : a = b).
      { assert (Ha : In a (b :: l2)) by (apply (Permutation_in _ Hp); left; reflexivity).
        assert (Hb : In b (a :: l1)) by (apply (Permutation_in _ (Permutation_sym Hp)); left; reflexivity).
        destruct Ha as [-> | Ha]; [reflexivity |].
        destruct Hb as [-> | Hb]; [reflexivity |].
        apply String.leb_antisym.
        - exact (proj1 (List.Forall_forall _ _) Hf1 b Hb).
        - exact (proj1 (List.Forall_forall _ _) Hf2 a Ha). }
      subst b. f_equal. apply IH; [exact Hs2 |].
      exact (Permutation_cons_inv Hp).
Qed.

Lemma sort_strings_perm_eq (l1 l2 : list string) :
  Permutation l1 l2 -> sort_strings l1 = sort_strings l2.
Proof.
  intros Hp. apply sorted_perm_unique; try apply sort_strings_sorted.
  rewrite !sort_strings_perm. exact Hp.
Qed.

Lemma obj_set_perm_filter (k : string) (v : Val) (o : Obj) :
  List.NoDup (map fst o) ->
  Permutation (obj_set k v o) ((k, v) :: List.filter (fun kv => negb (String.eqb k kv.1)) o).
Proof.
  induction o as [| [k0 v0] o IH]; simpl; intros Hnd; [reflexivity |].
  inversion Hnd as [| ? ? Hn Hd]; subst.
  destruct (String.eqb k k0) eqn:E; simpl.
  - apply String.eqb_eq in E. subst k0. constructor.
    rewrite List.forallb_filter_id; [reflexivity |]. apply List.forallb_forall. intros [k1 v1] Hin. simpl.
    destruct (String.eqb k k1) eqn:E1; [| reflexivity].
    apply String.eqb_eq in E1. subst. exfalso. apply Hn.
    apply in_map_iff. exists (k1, v1). auto.
  - rewrite (IH Hd). apply perm_swap.
Qed.

Lemma filter_perm (f : string * Val -> bool) (o o' : Obj) :
  Permutation o o' -> Permutation (List.filter f o) (List.filter f o').
Proof.
  induction 1 as [| x l l' _ IH | x y l | l l' l'' _ IH1 _ IH2]; simpl.
  - constructor.
  - destruct (f x); [constructor |]; exact IH.
  - destruct (f x), (f y); try constructor; try reflexivity.
  - rewrite IH1. exact IH2.
Qed.

Lemma obj_set_perm (k : string) (v : Val) (o o' : Obj) :
  List.NoDup (map fst o) -> Permutation o o' ->
  Permutation (obj_set k v o) (obj_set k v o').
Proof.
  intros Hnd Hp.
  assert (Hnd' : List.NoDup (map fst o'))
    by (apply (Permutation_NoDup (Permutation_map fst Hp)); exact Hnd).
  rewrite (obj_set_perm_filter k v o Hnd), (obj_set_perm_filter k v o' Hnd').
  constructor. apply filter_perm. exact Hp.
Qed.

(** davinci_llm with its identifying parameters listed in the other order. *)
Definition davinci_llm_swapped : BaseLLM :=
  mkBaseLLM "openai" [("stop", VNull); ("modelName", VStr "text-davinci-003")]
    true [] false (LLM_generate echo_call).

(** X16: the cache key [llmStringKey] of two instances with the same [_llmType]
    whose identifying parameters (distinct keys) hold the same entries in
    any order is the same, whatever [stop] is: the entries are sorted
    before being joined. *)
Theorem llmStringKey_order_independent (m m' : BaseLLM) (stop : option (list string)) :
  _llmType m = _llmType m' ->
  Permutation (_identifyingParams m) (_identifyingParams m') ->
  List.NoDup (map fst (_identifyingParams m)) ->
  llmStringKey m stop = llmStringKey m' stop.
Proof.
  intros Ht Hp Hnd.
  assert (Hnd' : List.NoDup (map fst (_identifyingParams m')))
    by (apply (Permutation_NoDup (Permutation_map fst Hp)); exact Hnd).
  unfold llmStringKey, serialize, _modelType. rewrite Ht.
  rewrite (obj_spread_id _ Hnd), (obj_spread_id _ Hnd').
  f_equal. apply sort_strings_perm_eq. apply Permutation_map.
  apply obj_set_perm; [do 2 apply obj_set_nodup; exact Hnd |].
  apply obj_set_perm; [apply obj_set_nodup; exact Hnd |].
  apply obj_set_perm; [exact Hnd | exact Hp].
Qed.

Lemma llmStringKey_order_independent_witness :
  llmStringKey davinci_llm (Some ["a"]) = llmStringKey davinci_llm_swapped (Some ["a"]).
Proof.
  apply llmStringKey_order_independent.
  - reflexivity.
  - apply perm_swap.
  - vm_compute. repeat constructor; simpl; intuition discriminate.
Defined.
